(** * Multi-project dashboard server: registry, active-session resolver,
      periodic rescan and teardown.

    Shallow embedding of [MultiProjectDashboardServer] (the dashboard's
    multi-server module): [collectActiveSessions], [findTaskById], the
    callback of [startPeriodicRescan], the [/api/tunnel/stop] route and
    [stop]. *)

From Stdlib Require Import List Ascii String ZArith Lia Bool Permutation Sorted.
From Stdlib Require Import Structures.OrdersEx RelationClasses.
From Stdlib Require Import QArith Qminmax Lqa DecimalString.
Import ListNotations.

Open Scope string_scope.
Open Scope list_scope.
Open Scope Z_scope.

Set Implicit Arguments.

(* ================================================================== *)
(** ** JavaScript values used by the server *)

(** An opaque payload ([any] in the source) that is only carried around. *)
Definition JsAny := option string.

(** Truthiness of an optional string: [undefined] and [''] are falsy. *)
Definition truthy (o : option string) : bool :=
  match o with
  | Some s => negb (s =? "")%string
  | None => false
  end.

(** [a || b] where [a] is an optional string and [b] a string. *)
Definition orElse (a : option string) (b : string) : string :=
  match a with
  | Some s => if (s =? "")%string then b else s
  | None => b
  end.

(** [d || new Date(0)] on timestamps (milliseconds since the epoch). *)
Definition orEpoch (d : option Z) : Z :=
  match d with
  | Some t => t
  | None => 0
  end.

(** [Array.prototype.includes] on string arrays. *)
Fixpoint includes (l : list string) (x : string) : bool :=
  match l with
  | [] => false
  | y :: l' => (y =? x)%string || includes l' x
  end.

(* ------------------------------------------------------------------ *)
(** *** [Array.prototype.sort]

    The sort is stable; for a consistent comparator its result is the
    stable sorted arrangement, computed here by insertion from the right.
    An element moves in front of its right neighbour exactly when the
    comparator does not answer a positive number. *)

Section JsSort.
Variable A : Type.
Variable cmp : A -> A -> Z.

Fixpoint sortInsert (x : A) (l : list A) : list A :=
  match l with
  | [] => [x]
  | y :: l' => if cmp x y <=? 0 then x :: y :: l' else y :: sortInsert x l'
  end.

Fixpoint jsSort (l : list A) : list A :=
  match l with
  | [] => []
  | x :: l' => sortInsert x (jsSort l')
  end.
End JsSort.

(* ------------------------------------------------------------------ *)
(** *** [Map] with insertion order

    [this.projects] is a [Map<string, ProjectState>]: iteration follows
    insertion order, [set] on a present key keeps its position. *)

Section JsMap.
Variable V : Type.

Definition JsMap := list (string * V).

Definition mapKeys (m : JsMap) : list string := map fst m.

Fixpoint mapHas (m : JsMap) (k : string) : bool :=
  match m with
  | [] => false
  | (k', _) :: m' => (k' =? k)%string || mapHas m' k
  end.

Fixpoint mapGet (m : JsMap) (k : string) : option V :=
  match m with
  | [] => None
  | (k', v) :: m' => if (k' =? k)%string then Some v else mapGet m' k
  end.

Fixpoint mapSet (m : JsMap) (k : string) (v : V) : JsMap :=
  match m with
  | [] => [(k, v)]
  | (k', v') :: m' =>
      if (k' =? k)%string then (k, v) :: m' else (k', v') :: mapSet m' k v
  end.

Fixpoint mapDelete (m : JsMap) (k : string) : JsMap :=
  match m with
  | [] => []
  | (k', v') :: m' =>
      if (k' =? k)%string then m' else (k', v') :: mapDelete m' k
  end.

(** Keys of a [Map] are pairwise distinct. *)
Definition mapWf (m : JsMap) : Prop := NoDup (mapKeys m).
End JsMap.

(* ================================================================== *)
(** ** Parsed documents *)

Module Task.
(** [Task] of the parser, with the fields the server touches. *)
#[warnings="-register-all"]
Inductive t : Type :=
  mk { id : string;
       description : string;
       completed : bool;
       requirements : list string;
       subtasks : option (list t) }.
End Task.

(** [findTaskById]: the first task, in document order and descending into
    sub-tasks before moving on, whose id is [taskId]. *)
Fixpoint findTaskIn (taskId : string) (task : Task.t) {struct task}
  : option Task.t :=
  match task with
  | Task.mk i _ _ _ subs =>
      if (i =? taskId)%string then Some task
      else
        match subs with
        | Some l =>
            (fix findTasks (l : list Task.t) : option Task.t :=
               match l with
               | [] => None
               | t' :: rest =>
                   match findTaskIn taskId t' with
                   | Some found => Some found
                   | None => findTasks rest
                   end
               end) l
        | None => None
        end
  end.

Fixpoint findTaskById (tasks : list Task.t) (taskId : string)
  : option Task.t :=
  match tasks with
  | [] => None
  | task :: rest =>
      match findTaskIn taskId task with
      | Some found => Some found
      | None => findTaskById rest taskId
      end
  end.

(** Document order of a task tree: a task, then its sub-tasks, then its
    later siblings. *)
Fixpoint flattenTask (task : Task.t) {struct task} : list Task.t :=
  match task with
  | Task.mk _ _ _ _ subs =>
      task ::
      match subs with
      | Some l =>
          (fix flattenAll (l : list Task.t) : list Task.t :=
             match l with
             | [] => []
             | t' :: rest => flattenTask t' ++ flattenAll rest
             end) l
      | None => []
      end
  end.

Fixpoint flattenTasks (tasks : list Task.t) : list Task.t :=
  match tasks with
  | [] => []
  | task :: rest => flattenTask task ++ flattenTasks rest
  end.

Module TaskInfo.
(** [spec.tasks]: the task tree and the id flagged in progress. *)
Record t : Type :=
  mk { taskList : list Task.t;
       inProgress : option string }.
End TaskInfo.

Module Spec.
Record t : Type :=
  mk { name : string;
       displayName : option string;
       status : string;
       lastModified : option Z;
       tasks : option TaskInfo.t;
       requirements : JsAny;
       design : JsAny }.
End Spec.

Inductive Severity := critical | high | medium | low.

Module BugReport.
Record t : Type := mk { severity : option Severity }.
End BugReport.

Module Bug.
Record t : Type :=
  mk { name : string;
       displayName : option string;
       status : string;
       lastModified : option Z;
       report : option BugReport.t }.
End Bug.

(** [spec.tasks && spec.tasks.inProgress] *)
Definition specInProgress (spec : Spec.t) : option string :=
  match Spec.tasks spec with
  | Some ti => if truthy (TaskInfo.inProgress ti) then TaskInfo.inProgress ti else None
  | None => None
  end.

Definition hasInProgress (spec : Spec.t) : bool :=
  match specInProgress spec with
  | Some _ => true
  | None => false
  end.

(* ================================================================== *)
(** ** Registry entries *)

Module Project.
(** [DiscoveredProject] *)
Record t : Type :=
  mk { path : string;
       name : string;
       specCount : Z;
       bugCount : Z;
       hasActiveSession : bool;
       gitBranch : option string;
       gitCommit : option string }.

Definition withPath (p : t) (newPath : string) : t :=
  mk newPath (name p) (specCount p) (bugCount p) (hasActiveSession p)
     (gitBranch p) (gitCommit p).
End Project.

(** [ProjectState]. A parser and a watcher are identified by the root
    they were constructed with; what they answer is in the [World]. *)
Record ProjectState : Type :=
  { project : Project.t;
    parser : string;
    watcher : string }.

Definition Registry := JsMap ProjectState.

(* ================================================================== *)
(** ** Active sessions *)

Module Session.
(** [BaseActiveSession] *)
Record base : Type :=
  mkBase { projectPath : string;
           projectName : string;
           displayName : string;
           lastModified : Z;
           isCurrentlyActive : bool;
           hasActiveSession : bool;
           gitBranch : option string;
           gitCommit : option string }.

(** The fields [ActiveSpecSession] adds. *)
Record specFields : Type :=
  mkSpec { specName : string;
           task : Task.t;
           status : option string;
           requirements : JsAny;
           design : JsAny;
           tasks : option TaskInfo.t;
           isAdHoc : option bool }.

(** The fields [ActiveBugSession] adds. *)
Record bugFields : Type :=
  mkBug { bugName : string;
          bugStatus : string;
          bugSeverity : option Severity;
          nextCommand : string }.

(** [ActiveSession = ActiveSpecSession | ActiveBugSession] *)
Inductive t : Type :=
| spec (b : base) (s : specFields)
| bug (b : base) (g : bugFields).

Definition common (s : t) : base :=
  match s with
  | spec b _ => b
  | bug b _ => b
  end.

Definition isSpec (s : t) : bool :=
  match s with
  | spec _ _ => true
  | bug _ _ => false
  end.

(** The session with its [lastModified] replaced. *)
Definition withLastModified (s : t) (d : Z) : t :=
  let rebase b :=
    mkBase (projectPath b) (projectName b) (displayName b) d
           (isCurrentlyActive b) (hasActiveSession b)
           (gitBranch b) (gitCommit b) in
  match s with
  | spec b f => spec (rebase b) f
  | bug b f => bug (rebase b) f
  end.
End Session.

(** An entry of [activeWorkItems]: [type] and [item] form one tagged value. *)
Inductive Item : Type :=
| SpecItem (spec : Spec.t)
| BugItem (bug : Bug.t).

Record WorkItem : Type :=
  { item : Item;
    lastModified : Z;
    priority : Z }.

Definition specWorkItem (prio : Z) (spec : Spec.t) : WorkItem :=
  {| item := SpecItem spec;
     lastModified := orEpoch (Spec.lastModified spec);
     priority := prio |}.

Definition bugWorkItem (prio : Z) (bug : Bug.t) : WorkItem :=
  {| item := BugItem bug;
     lastModified := orEpoch (Bug.lastModified bug);
     priority := prio |}.

Definition isActiveBug (bug : Bug.t) : bool :=
  includes ["analyzing"; "fixing"; "verifying"] (Bug.status bug).

(** Specs with a task in progress (priority 100), then bugs being worked
    on (priority 90). *)
Definition primaryWorkItems (specs : list Spec.t) (bugs : list Bug.t)
  : list WorkItem :=
  map (specWorkItem 100) (filter hasInProgress specs)
  ++ map (bugWorkItem 90) (filter isActiveBug bugs).

(** Incomplete specs, then unresolved bugs (priority 10). *)
Definition fallbackWorkItems (specs : list Spec.t) (bugs : list Bug.t)
  : list WorkItem :=
  map (specWorkItem 10)
      (filter (fun spec => negb (Spec.status spec =? "completed")%string) specs)
  ++ map (bugWorkItem 10)
      (filter (fun bug => negb (Bug.status bug =? "resolved")%string) bugs).

(** [activeWorkItems] before it is sorted. *)
Definition activeWorkItems (specs : list Spec.t) (bugs : list Bug.t)
  : list WorkItem :=
  match primaryWorkItems specs bugs with
  | [] => fallbackWorkItems specs bugs
  | items => items
  end.

(** The comparator handed to [activeWorkItems.sort]. *)
Definition workItemCompare (a b : WorkItem) : Z :=
  if negb (priority a =? priority b) then priority b - priority a
  else lastModified b - lastModified a.

Definition sortedWorkItems (specs : list Spec.t) (bugs : list Bug.t)
  : list WorkItem :=
  jsSort workItemCompare (activeWorkItems specs bugs).

(** The task shown for a spec: the one in progress if the tree has it. *)
Definition findActiveTask (spec : Spec.t) : option Task.t :=
  match Spec.tasks spec with
  | Some ti =>
      match TaskInfo.inProgress ti with
      | Some taskId =>
          if truthy (Some taskId)
          then findTaskById (TaskInfo.taskList ti) taskId
          else None
      | None => None
      end
  | None => None
  end.

Definition placeholderTask (spec : Spec.t) : Task.t :=
  Task.mk "session" (orElse (Spec.displayName spec) (Spec.name spec))
          false [] None.

Definition adHocTask : Task.t :=
  Task.mk "session" "Active Claude session" false [] None.

(** The [switch (bug.status)] that picks the next command. *)
Definition nextCommandFor (bug : Bug.t) : string :=
  let st := Bug.status bug in
  if (st =? "reported")%string then "/bug-analyze " ++ Bug.name bug
  else if (st =? "analyzing")%string then "/bug-analyze " ++ Bug.name bug
  else if (st =? "fixing")%string then "/bug-fix " ++ Bug.name bug
  else if (st =? "verifying")%string then "/bug-verify " ++ Bug.name bug
  else if (st =? "fixed")%string then "/bug-verify " ++ Bug.name bug
  else if (st =? "resolved")%string then ""
  else "/bug-analyze " ++ Bug.name bug.

(** [bug.report?.severity] *)
Definition severityOf (bug : Bug.t) : option Severity :=
  match Bug.report bug with
  | Some r => BugReport.severity r
  | None => None
  end.

Section Resolver.
(** [projectPath] and [state] of the loop over [this.projects]. *)
Variable projectPath : string.
Variable state : ProjectState.

Definition sessionBase (display : string) (modified : Z) : Session.base :=
  Session.mkBase projectPath (Project.name (project state)) display modified
                 true true
                 (Project.gitBranch (project state))
                 (Project.gitCommit (project state)).

Definition renderSpec (spec : Spec.t) (modified : Z) : Session.t :=
  let activeTask :=
    match findActiveTask spec with
    | Some found => found
    | None => placeholderTask spec
    end in
  Session.spec
    (sessionBase (orElse (Spec.displayName spec) (Spec.name spec)) modified)
    (Session.mkSpec (Spec.name spec) activeTask (Some (Spec.status spec))
                    (Spec.requirements spec) (Spec.design spec)
                    (Spec.tasks spec) None).

Definition renderBug (bug : Bug.t) (modified : Z) : Session.t :=
  Session.bug
    (sessionBase (orElse (Bug.displayName bug) (Bug.name bug)) modified)
    (Session.mkBug (Bug.name bug) (Bug.status bug) (severityOf bug)
                   (nextCommandFor bug)).

Definition adHocSession (now : Z) : Session.t :=
  Session.spec
    (sessionBase "Ad-hoc Session" now)
    (Session.mkSpec "ad-hoc-session" adHocTask None None None None
                    (Some true)).

Definition renderWorkItem (mostRecent : WorkItem) : Session.t :=
  match item mostRecent with
  | SpecItem spec => renderSpec spec (lastModified mostRecent)
  | BugItem bug => renderBug bug (lastModified mostRecent)
  end.

(** The session pushed for one project with an attached process. The
    source's [if (activeSession)] guard always passes, every work item
    being a spec or a bug. *)
Definition activeSessionOf (specs : list Spec.t) (bugs : list Bug.t)
           (now : Z) : Session.t :=
  match sortedWorkItems specs bugs with
  | mostRecent :: _ => renderWorkItem mostRecent
  | [] => adHocSession now
  end.
End Resolver.

(* ================================================================== *)
(** ** Server state, collaborators and effects *)

(** A connected viewer: a socket and its [readyState] (1 is OPEN). *)
Record Client : Type :=
  { clientId : nat;
    readyState : Z }.

(** Modelled from the spec: the tunnel collaborator ([TunnelManager], whose
    module is not among the sources) is reduced to its status, [active] and
    the forwarded [info]. *)
Record TunnelManager : Type :=
  { tunnelActive : bool;
    tunnelInfo : JsAny }.

Record Server : Type :=
  { clients : list Client;
    projects : Registry;
    rescanInterval : option nat;
    tunnelManager : option TunnelManager }.

Definition withProjects (s : Server) (r : Registry) : Server :=
  {| clients := clients s; projects := r;
     rescanInterval := rescanInterval s; tunnelManager := tunnelManager s |}.

Definition withClients (s : Server) (c : list Client) : Server :=
  {| clients := c; projects := projects s;
     rescanInterval := rescanInterval s; tunnelManager := tunnelManager s |}.

Definition withTunnelManager (s : Server) (m : option TunnelManager) : Server :=
  {| clients := clients s; projects := projects s;
     rescanInterval := rescanInterval s; tunnelManager := m |}.

(** What the collaborators answer while one handler runs: discovery, the
    parsers (by root), the clock ([new Date()], one reading per run), and
    which collaborator calls throw. *)
Record World : Type :=
  { discoverProjects : list Project.t;
    getAllSpecs : string -> list Spec.t;
    getAllBugs : string -> list Bug.t;
    getProjectSteeringStatus : string -> JsAny;
    now : Z;
    watcherStartThrows : string -> bool;
    watcherStopThrows : string -> bool;
    stopTunnelThrows : bool;
    appCloseThrows : bool }.

(** The payload of a [new-project] message. *)
Record ProjectData : Type :=
  { dataProject : Project.t;
    dataSpecs : list Spec.t;
    dataBugs : list Bug.t;
    dataSteering : JsAny }.

Inductive Message : Type :=
| NewProject (data : ProjectData)
| RemoveProject (path : string)
| ActiveSessionsUpdate (data : list Session.t)
| TunnelStopped (data : JsAny).

Inductive Effect : Type :=
| ClearInterval (timer : nat)
| WatcherStart (root : string)
| WatcherStop (root : string)
| StopTunnel
| Send (client : nat) (msg : Message)
| CloseClient (client : nat)
| AppClose.

Inductive Failure : Type :=
| WatcherStartFailed (root : string)
| WatcherStopFailed (root : string)
| StopTunnelFailed
| AppCloseFailed.

Inductive Outcome (A : Type) : Type :=
| Done (a : A)
| Thrown (e : Failure).

Arguments Thrown {A} e.

(** A handler: it reads and updates the server, leaves a trace of effects
    and either finishes or throws. *)
Definition M (A : Type) : Type := Server -> list Effect * Server * Outcome A.

Definition ret {A : Type} (a : A) : M A := fun s => ([], s, Done a).

Definition bind {A B : Type} (m : M A) (k : A -> M B) : M B :=
  fun s =>
    match m s with
    | (tr, s', Done a) =>
        match k a s' with
        | (tr', s'', r) => (tr ++ tr', s'', r)
        end
    | (tr, s', Thrown e) => (tr, s', Thrown e)
    end.

Notation "x <- m ;; k" := (bind m (fun x => k))
  (at level 61, m at next level, right associativity).
Notation "m ;;; k" := (bind m (fun _ => k))
  (at level 61, right associativity).

Definition get : M Server := fun s => ([], s, Done s).
Definition put (s : Server) : M unit := fun _ => ([], s, Done tt).
Definition emit (e : Effect) : M unit := fun s => ([e], s, Done tt).
Definition throw {A : Type} (e : Failure) : M A := fun s => ([], s, Thrown e).

(** [try { m } catch { h }] *)
Definition tryCatch {A : Type} (m : M A) (h : Failure -> M A) : M A :=
  fun s =>
    match m s with
    | (tr, s', Done a) => (tr, s', Done a)
    | (tr, s', Thrown e) =>
        match h e s' with
        | (tr', s'', r) => (tr ++ tr', s'', r)
        end
    end.

(** A call that has an effect and may throw. *)
Definition call (e : Effect) (throws : bool) (f : Failure) : M unit :=
  emit e ;;; if throws then throw f else ret tt.

Fixpoint forEach {A : Type} (l : list A) (body : A -> M unit) : M unit :=
  match l with
  | [] => ret tt
  | x :: l' => body x ;;; forEach l' body
  end.

Fixpoint mapEach {A B : Type} (l : list A) (body : A -> M B) : M (list B) :=
  match l with
  | [] => ret []
  | x :: l' => y <- body x ;; ys <- mapEach l' body ;; ret (y :: ys)
  end.

Definition traceOf {A : Type} (r : list Effect * Server * Outcome A)
  : list Effect := fst (fst r).
Definition serverOf {A : Type} (r : list Effect * Server * Outcome A)
  : Server := snd (fst r).
Definition outcomeOf {A : Type} (r : list Effect * Server * Outcome A)
  : Outcome A := snd r.

(** [this.clients.forEach(c => { if (c.readyState === 1) c.send(msg) })] *)
Definition broadcast (msg : Message) : M unit :=
  s <- get ;;
  forEach (clients s)
          (fun client =>
             if readyState client =? 1
             then emit (Send (clientId client) msg)
             else ret tt).

(** [getTunnelStatus().active] *)
Definition tunnelStatusActive (s : Server) : bool :=
  match tunnelManager s with
  | Some m => tunnelActive m
  | None => false
  end.

(** Modelled from the spec: [TunnelManager.stopTunnel] does nothing when no
    tunnel is active; otherwise it tears the tunnel down, which may throw,
    and its [tunnel:stopped] event is relayed to the viewers. *)
Definition stopTunnel (w : World) (m : TunnelManager) : M unit :=
  if tunnelActive m then
    call StopTunnel (stopTunnelThrows w) StopTunnelFailed ;;;
    s <- get ;;
    put (withTunnelManager s
           (Some {| tunnelActive := false; tunnelInfo := None |})) ;;;
    broadcast (TunnelStopped None)
  else ret tt.

(* ================================================================== *)
(** ** The server's handlers *)

Section Handlers.
(** [String.prototype.localeCompare] of the runtime's locale. *)
Variable localeCompare : string -> string -> Z.
(** [normalize(resolve(p))] of the runtime's [path] module. *)
Variable normalizePath : string -> string.

(** The comparator handed to [allActiveSessions.sort]. *)
Definition sessionCompare (a b : Session.t) : Z :=
  let a' := Session.common a in
  let b' := Session.common b in
  if Session.isCurrentlyActive a' && negb (Session.isCurrentlyActive b')
  then -1
  else if negb (Session.isCurrentlyActive a') && Session.isCurrentlyActive b'
  then 1
  else localeCompare (Session.projectName a') (Session.projectName b').

(** [allActiveSessions] after the loop over the registry. *)
Fixpoint allActiveSessions (w : World) (registry : Registry)
  : list Session.t :=
  match registry with
  | [] => []
  | (projectPath, state) :: rest =>
      if negb (Project.hasActiveSession (project state))
      then allActiveSessions w rest
      else
        activeSessionOf projectPath state
                        (getAllSpecs w (parser state))
                        (getAllBugs w (parser state))
                        (now w)
        :: allActiveSessions w rest
  end.

Definition collectActiveSessions (w : World) (registry : Registry)
  : list Session.t :=
  jsSort sessionCompare (allActiveSessions w registry).

(** [initializeProject]: the project object is updated in place with the
    normalised path, so the caller sees the returned project from then
    on. *)
Definition initializeProject (w : World) (p : Project.t) : M Project.t :=
  let normalizedPath := normalizePath (Project.path p) in
  let p' := Project.withPath p normalizedPath in
  call (WatcherStart normalizedPath)
       (watcherStartThrows w normalizedPath)
       (WatcherStartFailed normalizedPath) ;;;
  s <- get ;;
  put (withProjects s
         (mapSet (projects s) (Project.path p')
                 {| project := p';
                    parser := normalizedPath;
                    watcher := normalizedPath |})) ;;;
  ret p'.

(** Body of the first loop of the rescan: initialise and announce a
    project the registry does not have. It returns the project as the
    loop leaves it in [activeProjects]. *)
Definition rescanAddOne (w : World) (p : Project.t) : M Project.t :=
  s <- get ;;
  if negb (mapHas (projects s) (Project.path p)) then
    p' <- initializeProject w p ;;
    s' <- get ;;
    let parser' :=
      option_map parser (mapGet (projects s') (Project.path p')) in
    let specs :=
      match parser' with Some r => getAllSpecs w r | None => [] end in
    let bugs :=
      match parser' with Some r => getAllBugs w r | None => [] end in
    let steeringStatus :=
      match parser' with
      | Some r => getProjectSteeringStatus w r
      | None => None
      end in
    broadcast (NewProject {| dataProject := p';
                             dataSpecs := specs;
                             dataBugs := bugs;
                             dataSteering := steeringStatus |}) ;;;
    ret p'
  else ret p.

Definition rescanAdd (w : World) (activeProjects : list Project.t)
  : M (list Project.t) :=
  mapEach activeProjects (rescanAddOne w).

(** [activeProjects.some((p) => p.path === path)] *)
Definition stillExists (activeProjects : list Project.t)
           (entry : string * ProjectState) : bool :=
  existsb (fun p => (Project.path p =? fst entry)%string) activeProjects.

(** Body of the second loop of the rescan: drop a project discovery no
    longer reports. *)
Definition rescanRemoveOne (w : World) (activeProjects : list Project.t)
           (entry : string * ProjectState) : M unit :=
  let path := fst entry in
  let state := snd entry in
  if negb (stillExists activeProjects entry) then
    call (WatcherStop (watcher state))
         (watcherStopThrows w (watcher state))
         (WatcherStopFailed (watcher state)) ;;;
    s' <- get ;;
    put (withProjects s' (mapDelete (projects s') path)) ;;;
    broadcast (RemoveProject path)
  else ret tt.

Definition rescanRemove (w : World) (activeProjects : list Project.t)
  : M unit :=
  s <- get ;;
  forEach (projects s) (rescanRemoveOne w activeProjects).

(** The callback of [startPeriodicRescan]. It returns the snapshot it
    broadcast. *)
Definition rescan (w : World) : M (list Session.t) :=
  activeProjects <- rescanAdd w (discoverProjects w) ;;
  rescanRemove w activeProjects ;;;
  s <- get ;;
  let activeSessions := collectActiveSessions w (projects s) in
  broadcast (ActiveSessionsUpdate activeSessions) ;;;
  ret activeSessions.

(** What a route answers. *)
Inductive Reply : Type :=
| ReplyError (code : Z) (error : string)
| ReplySuccess.

(** [POST /api/tunnel/stop] *)
Definition tunnelStopRoute (w : World) : M Reply :=
  s <- get ;;
  match tunnelManager s with
  | None => ret (ReplyError 404 "No tunnel manager available")
  | Some m =>
      tryCatch
        (stopTunnel w m ;;;
         broadcast (TunnelStopped None) ;;;
         ret ReplySuccess)
        (fun _ => ret (ReplyError 500 "Failed to stop tunnel"))
  end.

(** [stop] *)
Definition stop (w : World) : M unit :=
  s <- get ;;
  match rescanInterval s with
  | Some timer => emit (ClearInterval timer)
  | None => ret tt
  end ;;;
  forEach (projects s)
    (fun entry =>
       call (WatcherStop (watcher (snd entry)))
            (watcherStopThrows w (watcher (snd entry)))
            (WatcherStopFailed (watcher (snd entry)))) ;;;
  match tunnelManager s with
  | Some m => stopTunnel w m
  | None => ret tt
  end ;;;
  s1 <- get ;;
  forEach (clients s1)
    (fun client =>
       if readyState client =? 1
       then emit (CloseClient (clientId client))
       else ret tt) ;;;
  s2 <- get ;;
  put (withClients s2 []) ;;;
  call AppClose (appCloseThrows w) AppCloseFailed.
End Handlers.

(* ================================================================== *)
(** ** Properties the handlers are checked against *)

(** [a] may stand before [b] in the rendered list: currently active
    sessions first, then ascending project name. *)
Definition orderedBefore (localeCompare : string -> string -> Z)
           (a b : Session.t) : Prop :=
  let a' := Session.common a in
  let b' := Session.common b in
  (Session.isCurrentlyActive a' = true /\ Session.isCurrentlyActive b' = false)
  \/ (Session.isCurrentlyActive a' = Session.isCurrentlyActive b'
      /\ localeCompare (Session.projectName a') (Session.projectName b') <= 0).

(** The comparator that looks at the project name only. *)
Definition projectNameCompare (localeCompare : string -> string -> Z)
           (a b : Session.t) : Z :=
  localeCompare (Session.projectName (Session.common a))
                (Session.projectName (Session.common b)).

(** The sessions of one project in a snapshot. *)
Definition sessionsOf (path : string) (snapshot : list Session.t)
  : list Session.t :=
  filter (fun s => (Session.projectPath (Session.common s) =? path)%string)
         snapshot.

Definition isAdHocSession (s : Session.t) : bool :=
  match s with
  | Session.spec _ f =>
      match Session.isAdHoc f with
      | Some true => true
      | _ => false
      end
  | Session.bug _ _ => false
  end.

(** A snapshot with the clock reading of its ad-hoc sessions blanked. *)
Definition blankAdHocTime (s : Session.t) : Session.t :=
  if isAdHocSession s then Session.withLastModified s 0 else s.

(** The viewers a broadcast reaches. *)
Definition openClients (s : Server) : list nat :=
  map clientId (filter (fun c => readyState c =? 1) (clients s)).

Definition sends (s : Server) (msg : Message) : list Effect :=
  map (fun c => Send c msg) (openClients s).

Definition isNewProject (e : Effect) : bool :=
  match e with
  | Send _ (NewProject _) => true
  | _ => false
  end.

Definition isRemoveProject (e : Effect) : bool :=
  match e with
  | Send _ (RemoveProject _) => true
  | _ => false
  end.

(** Discovery reports every path in the form the registry keys it by. *)
Definition canonicalPaths (normalizePath : string -> string)
           (ps : list Project.t) : Prop :=
  Forall (fun p => normalizePath (Project.path p) = Project.path p) ps.

(** The roots of the watchers of a registry, in iteration order. *)
Definition watcherRoots (r : Registry) : list string :=
  map (fun entry => watcher (snd entry)) r.

Definition timerEffects (s : Server) : list Effect :=
  match rescanInterval s with
  | Some timer => [ClearInterval timer]
  | None => []
  end.

(** The lookup table of the specification: bug status to the verb of the
    next command, none for a resolved bug. *)
Definition nextCommandTable : list (string * option string) :=
  [ ("reported", Some "analyze");
    ("analyzing", Some "analyze");
    ("fixing", Some "fix");
    ("verifying", Some "verify");
    ("fixed", Some "verify");
    ("resolved", None) ].

Definition commandText (verb : option string) (name : string) : string :=
  match verb with
  | Some v => "/bug-" ++ v ++ " " ++ name
  | None => ""
  end.

(** The task flagged in progress, looked up in document order. *)
Definition taskInProgress (spec : Spec.t) : option Task.t :=
  match Spec.tasks spec with
  | Some ti =>
      match TaskInfo.inProgress ti with
      | Some taskId =>
          if (taskId =? "")%string then None
          else find (fun t => (Task.id t =? taskId)%string)
                    (flattenTasks (TaskInfo.taskList ti))
      | None => None
      end
  | None => None
  end.

(** What the tunnel step of [stop] does when it succeeds. *)
Definition tunnelEffects (s : Server) : list Effect :=
  if tunnelStatusActive s
  then StopTunnel :: sends s (TunnelStopped None)
  else [].

Definition afterTunnelStop (s : Server) : Server :=
  if tunnelStatusActive s
  then withTunnelManager s
         (Some {| tunnelActive := false; tunnelInfo := None |})
  else s.

(* ------------------------------------------------------------------ *)
(** *** Sample collaborators and states *)

(** A comparison of strings by code units, as [localeCompare] answers in a
    locale without tailoring on plain ASCII names of one case. *)
Definition codeUnitCompare (a b : string) : Z :=
  match String_as_OT.compare a b with
  | Lt => -1
  | Eq => 0
  | Gt => 1
  end.

(** Removes trailing slashes, as [resolve] does on an absolute path that
    is otherwise in normal form. *)
Fixpoint trimSlashes (s : string) : string :=
  match s with
  | EmptyString => EmptyString
  | String c rest =>
      match trimSlashes rest with
      | EmptyString => if Ascii.eqb c "/"%char then EmptyString else String c EmptyString
      | r => String c r
      end
  end.

Definition sampleTasks : TaskInfo.t :=
  TaskInfo.mk
    [ Task.mk "1" "Set up" true [] None;
      Task.mk "2" "Build" false []
              (Some [ Task.mk "2.1" "Model" true [] None;
                      Task.mk "2.3" "Wire up" false ["1.2"] None ]);
      Task.mk "3" "Ship" false [] None ]
    (Some "2.3").

Definition specInFlight : Spec.t :=
  Spec.mk "login" (Some "Login flow") "in-progress" (Some 500)
          (Some sampleTasks) None None.

Definition specDone : Spec.t :=
  Spec.mk "signup" (Some "Sign-up") "completed" (Some 900) None None None.

Definition bugFixing : Bug.t :=
  Bug.mk "crash" None "fixing" (Some 800)
         (Some (BugReport.mk (Some high))).

Definition bugResolved : Bug.t :=
  Bug.mk "typo" None "resolved" (Some 950) None.

Definition projectA : Project.t :=
  Project.mk "/w/a" "alpha" 1 1 true (Some "main") None.
Definition projectB : Project.t :=
  Project.mk "/w/b" "beta" 1 1 true None None.
Definition projectC : Project.t :=
  Project.mk "/w/c" "gamma" 1 0 false None None.

Definition stateOf (p : Project.t) : ProjectState :=
  {| project := p; parser := Project.path p; watcher := Project.path p |}.

Definition sampleRegistry : Registry :=
  [ ("/w/b", stateOf projectB);
    ("/w/c", stateOf projectC);
    ("/w/a", stateOf projectA) ].

Definition sampleWorld : World :=
  {| discoverProjects := [projectA; projectB; projectC];
     getAllSpecs := fun root =>
       if (root =? "/w/a")%string then [specDone; specInFlight]
       else if (root =? "/w/b")%string then [specDone]
       else [specInFlight];
     getAllBugs := fun root =>
       if (root =? "/w/a")%string then [bugFixing]
       else if (root =? "/w/b")%string then [bugResolved]
       else [];
     getProjectSteeringStatus := fun _ => None;
     now := 1000;
     watcherStartThrows := fun _ => false;
     watcherStopThrows := fun _ => false;
     stopTunnelThrows := false;
     appCloseThrows := false |}.

Definition sampleServer : Server :=
  {| clients := [ {| clientId := 1; readyState := 1 |};
                  {| clientId := 2; readyState := 3 |} ];
     projects := sampleRegistry;
     rescanInterval := Some 7%nat;
     tunnelManager := None |}.

(** Discovery that reports a root with a trailing slash. *)
Definition projectSlash : Project.t :=
  Project.mk "/w/a/" "alpha" 1 1 true None None.

Definition slashWorld : World :=
  {| discoverProjects := [projectSlash];
     getAllSpecs := getAllSpecs sampleWorld;
     getAllBugs := getAllBugs sampleWorld;
     getProjectSteeringStatus := fun _ => None;
     now := 1000;
     watcherStartThrows := fun _ => false;
     watcherStopThrows := fun _ => false;
     stopTunnelThrows := false;
     appCloseThrows := false |}.

Definition freshServer : Server :=
  {| clients := [ {| clientId := 1; readyState := 1 |} ];
     projects := [];
     rescanInterval := Some 7%nat;
     tunnelManager := None |}.

(** The sample world ten seconds later, nothing else changed. *)
Definition laterWorld : World :=
  {| discoverProjects := discoverProjects sampleWorld;
     getAllSpecs := getAllSpecs sampleWorld;
     getAllBugs := getAllBugs sampleWorld;
     getProjectSteeringStatus := fun _ => None;
     now := 11000;
     watcherStartThrows := fun _ => false;
     watcherStopThrows := fun _ => false;
     stopTunnelThrows := false;
     appCloseThrows := false |}.

(** The [lastModified] column of a snapshot. *)
Definition modifiedTimes (snapshot : list Session.t) : list Z :=
  map (fun s => Session.lastModified (Session.common s)) snapshot.

(** A world in which the watcher of [/w/c] fails to stop. *)
Definition brokenWatcherWorld : World :=
  {| discoverProjects := discoverProjects sampleWorld;
     getAllSpecs := getAllSpecs sampleWorld;
     getAllBugs := getAllBugs sampleWorld;
     getProjectSteeringStatus := fun _ => None;
     now := 1000;
     watcherStartThrows := fun _ => false;
     watcherStopThrows := fun root => (root =? "/w/c")%string;
     stopTunnelThrows := false;
     appCloseThrows := false |}.

Definition tunnelServer : Server :=
  withTunnelManager sampleServer
    (Some {| tunnelActive := true; tunnelInfo := Some "https://tunnel" |}).

Definition idleTunnelServer : Server :=
  withTunnelManager sampleServer
    (Some {| tunnelActive := false; tunnelInfo := None |}).

(* ================================================================== *)
(** ** Strings and arrays of the other modules *)

(** [String.prototype.includes] *)
Fixpoint strIncludes (s needle : string) : bool :=
  String.prefix needle s
  || match s with
     | EmptyString => false
     | String _ rest => strIncludes rest needle
     end.

(** [String.prototype.split] on a one-character separator. *)
Fixpoint splitOn (sep : ascii) (s : string) : list string :=
  match s with
  | EmptyString => [EmptyString]
  | String c rest =>
      if Ascii.eqb c sep then EmptyString :: splitOn sep rest
      else
        match splitOn sep rest with
        | part :: parts => String c part :: parts
        | [] => [String c EmptyString]
        end
  end.

(** [Set.prototype.add] on a set of strings kept in insertion order. *)
Definition setAdd (s : list string) (x : string) : list string :=
  if includes s x then s else s ++ [x].

(** A number printed by a template literal (integers only). *)
Definition showNumber (n : Z) : string :=
  NilZero.string_of_int (Z.to_int n).

(* ================================================================== *)
(** ** Pull-request workflow *)

Module Level.
(** ['low' | 'medium' | 'high'] *)
Inductive t : Type := low | medium | high.
End Level.

Module Conflict.
(** [ConflictAnalysis] *)
Record t : Type :=
  mk { hasConflicts : bool;
       conflictingFiles : list string;
       riskLevel : Level.t;
       suggestions : list string }.
End Conflict.

Inductive MergeType : Type := merge | squash | rebase.

Module Strategy.
(** [MergeStrategy] *)
Record t : Type :=
  mk { type : MergeType;
       reason : string;
       steps : list string }.
End Strategy.

Module Checks.
Record t : Type :=
  mk { hasApprovals : bool;
       ciPassing : bool;
       noConflicts : bool;
       branchUpToDate : bool }.
End Checks.

Module MergeStatus.
Record t : Type :=
  mk { ready : bool;
       blockers : list string;
       checks : Checks.t }.
End MergeStatus.

Module CodeAnalysis.
Record t : Type :=
  mk { modifiedFiles : list string;
       complexity : Level.t;
       suggestedReviewers : list string;
       estimatedReviewTime : Q }.
End CodeAnalysis.

(** ['open' | 'closed'] *)
Inductive IssueState : Type := stateOpen | stateClosed.

Module PullRequest.
Record t : Type :=
  mk { number : Z;
       title : string;
       body : string;
       state : IssueState;
       headRef : string;
       baseRef : string;
       html_url : string }.
End PullRequest.

Module Issue.
Record t : Type :=
  mk { number : Z;
       title : string;
       body : string;
       state : IssueState;
       assignee : option string;
       labels : list string;
       html_url : string }.
End Issue.

(** What [simple-git] answers: [raw] and [diff] by argument list ([None]
    when the command fails), and whether [fetch] fails. *)
Record Git : Type :=
  { gitRaw : list string -> option string;
    gitDiff : list string -> option string;
    gitFetchThrows : bool }.

Definition isCriticalFile (file : string) : bool :=
  strIncludes file "package.json"
  || strIncludes file "config"
  || strIncludes file "migration"
  || strIncludes file "schema".

Definition assessRiskLevel (conflictingFiles : list string) : Level.t :=
  if (List.length conflictingFiles =? 0)%nat then Level.low
  else if (5 <? List.length conflictingFiles)%nat then Level.high
  else if (0 <? List.length (filter isCriticalFile conflictingFiles))%nat
  then Level.high
  else if (2 <? List.length conflictingFiles)%nat then Level.medium
  else Level.low.

Definition generateConflictSuggestions (conflictingFiles : list string)
  : list string :=
  if (List.length conflictingFiles =? 0)%nat
  then ["No conflicts detected - proceed with merge"]
  else
    [("Review conflicting files: "
      ++ String.concat ", " conflictingFiles)%string]
    ++ (if existsb (fun f => strIncludes f "package.json") conflictingFiles
        then ["Package.json conflicts detected - coordinate dependency changes"]
        else [])
    ++ (if existsb (fun f => strIncludes f "config") conflictingFiles
        then ["Configuration file conflicts - ensure environment consistency"]
        else [])
    ++ ["Consider rebasing to resolve conflicts cleanly";
        "Coordinate with other developers working on conflicting files"].

Definition suggestMergeStrategy (conflicts : Conflict.t) : Strategy.t :=
  if negb (Conflict.hasConflicts conflicts) then
    Strategy.mk squash "No conflicts detected, clean history preferred"
      ["Use GitHub squash and merge";
       "Ensure commit message follows conventional commits";
       "Delete feature branch after merge"]
  else
    match Conflict.riskLevel conflicts with
    | Level.high =>
        Strategy.mk merge "High risk conflicts require manual resolution"
          ["Resolve conflicts locally";
           "Test thoroughly after conflict resolution";
           "Use standard merge to preserve conflict resolution history";
           "Consider pair programming for complex conflicts"]
    | _ =>
        Strategy.mk rebase "Medium risk conflicts, rebase for clean history"
          ["Rebase feature branch onto target branch";
           "Resolve conflicts during rebase";
           "Force push rebased branch";
           "Use squash merge after successful rebase"]
    end.

Definition reviewersForFile (reviewers : list string) (file : string)
  : list string :=
  let r1 :=
    if strIncludes file "/auth/" || strIncludes file "login"
       || strIncludes file "security"
    then setAdd reviewers "security-team" else reviewers in
  let r2 :=
    if strIncludes file "/api/" || strIncludes file "backend"
       || strIncludes file "server"
    then setAdd r1 "backend-team" else r1 in
  let r3 :=
    if strIncludes file "/ui/" || strIncludes file "component"
       || strIncludes file "frontend"
    then setAdd r2 "frontend-team" else r2 in
  if strIncludes file "test" || strIncludes file "spec"
  then setAdd r3 "qa-team" else r3.

Definition suggestReviewersForFiles (files : list string) : list string :=
  fold_left reviewersForFile files [].

Definition estimateReviewTime (files : list string) (complexity : Level.t)
  : Q :=
  let baseTime := inject_Z (Z.of_nat (List.length files) * 5) in
  let baseTime' :=
    match complexity with
    | Level.high => (baseTime * 2)%Q
    | Level.medium => (baseTime * (3 # 2))%Q
    | Level.low => baseTime
    end in
  Qmin (Qmax baseTime' 15) 120.

Section GitWorkflow.
(** [String.prototype.trim] of the runtime. *)
Variable trim : string -> string.
Variable git : Git.

(** [output.split('\n').filter(f => f.trim())] *)
Definition fileLines (output : string) : list string :=
  filter (fun f => negb (trim f =? "")%string) (splitOn "010"%char output).

(** The analysis [detectPotentialConflicts] returns when a git command
    fails. *)
Definition conflictsUnknown : Conflict.t :=
  Conflict.mk false [] Level.low
    ["Unable to analyze conflicts - manual review recommended"].

Definition detectPotentialConflicts (branch1 branch2 : string) : Conflict.t :=
  match gitRaw git ["merge-base"; branch1; branch2] with
  | None => conflictsUnknown
  | Some mergeBase =>
      match gitDiff git [(trim mergeBase ++ "..." ++ branch1)%string;
                         "--name-only"] with
      | None => conflictsUnknown
      | Some branch1Files =>
          match
            gitDiff git [(trim mergeBase ++ "..." ++ branch2)%string;
                         "--name-only"]
          with
          | None => conflictsUnknown
          | Some branch2Files =>
              let files1 := fileLines branch1Files in
              let files2 := fileLines branch2Files in
              let conflictingFiles := filter (includes files2) files1 in
              Conflict.mk (0 <? List.length conflictingFiles)%nat
                          conflictingFiles
                          (assessRiskLevel conflictingFiles)
                          (generateConflictSuggestions conflictingFiles)
          end
      end
  end.

Definition isBranchUpToDate (headBranch baseBranch : string) : bool :=
  if gitFetchThrows git then false
  else
    match
      gitRaw git ["merge-base"; headBranch; ("origin/" ++ baseBranch)%string]
    with
    | None => false
    | Some mergeBase =>
        match gitRaw git ["rev-parse"; ("origin/" ++ baseBranch)%string] with
        | None => false
        | Some baseCommit => (trim mergeBase =? trim baseCommit)%string
        end
    end.

(** [checkMergeReadiness]. Both helpers catch their own failures, so the
    method's [catch] branch is never entered. *)
Definition checkMergeReadiness (pr : PullRequest.t) : MergeStatus.t :=
  let conflicts :=
    detectPotentialConflicts (PullRequest.headRef pr) (PullRequest.baseRef pr) in
  let noConflicts := negb (Conflict.hasConflicts conflicts) in
  let blockers1 :=
    if Conflict.hasConflicts conflicts
    then [("Merge conflicts detected in: "
           ++ String.concat ", " (Conflict.conflictingFiles conflicts))%string]
    else [] in
  let isUpToDate :=
    isBranchUpToDate (PullRequest.headRef pr) (PullRequest.baseRef pr) in
  let blockers2 :=
    if negb isUpToDate
    then blockers1 ++ [("Branch " ++ PullRequest.headRef pr ++ " is behind "
                        ++ PullRequest.baseRef pr)%string]
    else blockers1 in
  MergeStatus.mk (true && true && noConflicts && isUpToDate) blockers2
                 (Checks.mk true true noConflicts isUpToDate).

Definition analyzeCode (branchName : string) : CodeAnalysis.t :=
  match gitDiff git ["origin/main...HEAD"; "--name-only"] with
  | None => CodeAnalysis.mk [] Level.low [] 30
  | Some diffOutput =>
      let modifiedFiles := fileLines diffOutput in
      let complexity :=
        if (10 <? List.length modifiedFiles)%nat then Level.high
        else if (5 <? List.length modifiedFiles)%nat then Level.medium
        else Level.low in
      CodeAnalysis.mk modifiedFiles complexity
                      (suggestReviewersForFiles modifiedFiles)
                      (estimateReviewTime modifiedFiles complexity)
  end.
End GitWorkflow.

(* ================================================================== *)
(** ** GitHub integration *)

Module TeamMember.
Record t : Type :=
  mk { username : string;
       skills : list string;
       workload : Z }.
End TeamMember.

(** The comparator handed to [teamMembers.sort]. *)
Definition workloadCompare (a b : TeamMember.t) : Z :=
  TeamMember.workload a - TeamMember.workload b.

(** The [addAssignees] request: issue number and assignees. *)
Definition AssigneesRequest : Type := (Z * list string)%type.

(** [autoAssignIssue]: the request it sends, if any, and [teamMembers] as
    the in-place sort leaves the caller's array. *)
Definition autoAssignIssue (issue : Issue.t) (teamMembers : list TeamMember.t)
  : option AssigneesRequest * list TeamMember.t :=
  if (List.length teamMembers =? 0)%nat then (None, teamMembers)
  else
    let sorted := jsSort workloadCompare teamMembers in
    match sorted with
    | availableMember :: _ =>
        (Some (Issue.number issue, [TeamMember.username availableMember]),
         sorted)
    | [] => (None, sorted)
    end.

(** [\d] *)
Definition isDigit (c : ascii) : bool :=
  (Ascii.leb "0" c && Ascii.leb c "9")%char.

Definition isLower (c : ascii) : bool :=
  (Ascii.leb "a" c && Ascii.leb c "z")%char.

Definition isUpper (c : ascii) : bool :=
  (Ascii.leb "A" c && Ascii.leb c "Z")%char.

(** [\w] *)
Definition isWordChar (c : ascii) : bool :=
  isLower c || isUpper c || isDigit c || Ascii.eqb c "_".

(** [toUpperCase] on a character matched by [\w]. *)
Definition upperWordChar (c : ascii) : ascii :=
  if isLower c then ascii_of_nat (nat_of_ascii c - 32) else c.

Fixpoint skipDigits (s : string) : string :=
  match s with
  | EmptyString => EmptyString
  | String c rest => if isDigit c then skipDigits rest else s
  end.

(** [s.replace(/^\d+-/, '')] *)
Definition dropLeadingNumber (s : string) : string :=
  match s with
  | EmptyString => s
  | String c _ =>
      if isDigit c then
        match skipDigits s with
        | String d rest => if Ascii.eqb d "-" then rest else s
        | EmptyString => s
        end
      else s
  end.

(** [s.replace(/-/g, ' ')] *)
Fixpoint hyphensToSpaces (s : string) : string :=
  match s with
  | EmptyString => EmptyString
  | String c rest =>
      String (if Ascii.eqb c "-" then " "%char else c) (hyphensToSpaces rest)
  end.

(** [s.replace(/\b\w/g, l => l.toUpperCase())]; [afterWord] tells whether
    the character before is a word character. *)
Fixpoint capitalizeFrom (afterWord : bool) (s : string) : string :=
  match s with
  | EmptyString => EmptyString
  | String c rest =>
      String (if negb afterWord && isWordChar c then upperWordChar c else c)
             (capitalizeFrom (isWordChar c) rest)
  end.

Definition capitalizeWords (s : string) : string := capitalizeFrom false s.

Definition cleanFeaturePart (featurePart : string) : string :=
  capitalizeWords (hyphensToSpaces (dropLeadingNumber featurePart)).

Definition generatePRTitle (branchName : string) : string :=
  let parts := splitOn "/" branchName in
  let featurePart := last parts EmptyString in
  ("feat: " ++ cleanFeaturePart featurePart)%string.

(* ================================================================== *)
(** ** GitHub dashboard *)

Inductive ItemType : Type := issueType | prType.

Module KanbanItem.
Record t : Type :=
  mk { id : string;
       title : string;
       type : ItemType;
       assignee : option string;
       labels : list string;
       url : string;
       createdAt : Z;
       updatedAt : Z }.
End KanbanItem.

Module Kanban.
(** [KanbanView] *)
Record t : Type :=
  mk { backlog : list KanbanItem.t;
       inProgress : list KanbanItem.t;
       inReview : list KanbanItem.t;
       done : list KanbanItem.t }.
End Kanban.

Definition issueKanbanItem (now : Z) (issue : Issue.t) : KanbanItem.t :=
  KanbanItem.mk ("issue-" ++ showNumber (Issue.number issue))
                (Issue.title issue) issueType (Issue.assignee issue)
                (Issue.labels issue) (Issue.html_url issue) now now.

Definition prKanbanItem (now : Z) (pr : PullRequest.t) : KanbanItem.t :=
  KanbanItem.mk ("pr-" ++ showNumber (PullRequest.number pr))
                (PullRequest.title pr) prType None [] (PullRequest.html_url pr)
                now now.

Definition isIssueItem (item : KanbanItem.t) : bool :=
  match KanbanItem.type item with
  | issueType => true
  | prType => false
  end.

(** [renderPRKanban], from what [getOpenIssues] and [getPendingPRs]
    answered; [now] is the clock reading of [new Date()]. *)
Definition renderPRKanban (now : Z) (issues : list Issue.t)
           (prs : list PullRequest.t) : Kanban.t :=
  let issueItems := map (issueKanbanItem now) issues in
  let prItems := map (prKanbanItem now) prs in
  let allItems := issueItems ++ prItems in
  Kanban.mk
    (filter (fun item => isIssueItem item
                         && negb (truthy (KanbanItem.assignee item)))
            allItems)
    (filter (fun item => isIssueItem item
                         && truthy (KanbanItem.assignee item))
            allItems)
    (filter (fun item => negb (isIssueItem item)) allItems)
    [].

(* ================================================================== *)
(** ** More of the server *)

(** An entry as [initializeProject] stores it: keyed by the path of its
    project, with parser and watcher rooted there. *)
Definition entryOk (entry : string * ProjectState) : Prop :=
  Project.path (project (snd entry)) = fst entry
  /\ parser (snd entry) = fst entry
  /\ watcher (snd entry) = fst entry.

Definition registryOk (registry : Registry) : Prop :=
  mapWf registry /\ Forall entryOk registry.

(** A handler keeps a property of the server, however it ends. *)
Definition preserves (I : Server -> Prop) {A : Type} (m : M A) : Prop :=
  forall s, I s -> I (serverOf (m s)).

(** The payload of the [initial] message. *)
Record InitialState : Type :=
  { initialData : list ProjectData;
    initialSessions : list Session.t;
    initialUsername : string }.

(** What a tunnel-start route answers. *)
Inductive StartReply : Type :=
| StartAlreadyActive (tunnelInfo : JsAny)
| StartSuccess (tunnelInfo : JsAny)
| StartError (code : Z) (error : string).

Section MoreHandlers.
Variable localeCompare : string -> string -> Z.
(** [TunnelManager.startTunnel], whose module is not among the sources:
    any handler returning the tunnel info. *)
Variable startTunnel : TunnelManager -> M JsAny.

(** The payload [sendInitialState] sends to the new socket. *)
Definition sendInitialState (w : World) (registry : Registry)
           (username : string) : InitialState :=
  {| initialData :=
       map (fun entry =>
              {| dataProject := project (snd entry);
                 dataSpecs := getAllSpecs w (parser (snd entry));
                 dataBugs := getAllBugs w (parser (snd entry));
                 dataSteering :=
                   getProjectSteeringStatus w (parser (snd entry)) |})
           registry;
     initialSessions := collectActiveSessions localeCompare w registry;
     initialUsername := username |}.

(** [POST /api/tunnel/start]. A manager created here has no tunnel yet. *)
Definition tunnelStartRoute : M StartReply :=
  tryCatch
    (s <- get ;;
     m <- match tunnelManager s with
          | None =>
              let created := {| tunnelActive := false; tunnelInfo := None |} in
              put (withTunnelManager s (Some created)) ;;; ret created
          | Some m => ret m
          end ;;
     if tunnelActive m then ret (StartAlreadyActive (tunnelInfo m))
     else info <- startTunnel m ;; ret (StartSuccess info))
    (fun _ => ret (StartError 500 "Failed to start tunnel")).
End MoreHandlers.

(** The file patterns that call for a team's review. *)
Definition fileWants (file team : string) : bool :=
  (team =? "security-team")%string
  && (strIncludes file "/auth/" || strIncludes file "login"
      || strIncludes file "security")
  || (team =? "backend-team")%string
     && (strIncludes file "/api/" || strIncludes file "backend"
         || strIncludes file "server")
  || (team =? "frontend-team")%string
     && (strIncludes file "/ui/" || strIncludes file "component"
         || strIncludes file "frontend")
  || (team =? "qa-team")%string
     && (strIncludes file "test" || strIncludes file "spec").

(* ------------------------------------------------------------------ *)
(** *** More samples *)

(** [trim] on the blanks of ASCII. *)
Definition isBlank (c : ascii) : bool :=
  Ascii.eqb c " " || Ascii.eqb c "009" || Ascii.eqb c "010"
  || Ascii.eqb c "013".

Fixpoint trimStart (s : string) : string :=
  match s with
  | EmptyString => EmptyString
  | String c rest => if isBlank c then trimStart rest else s
  end.

Fixpoint trimEnd (s : string) : string :=
  match s with
  | EmptyString => EmptyString
  | String c rest =>
      match trimEnd rest with
      | EmptyString => if isBlank c then EmptyString else String c EmptyString
      | r => String c r
      end
  end.

Definition trimAscii (s : string) : string := trimEnd (trimStart s).

Definition sampleGit : Git :=
  {| gitRaw := fun args =>
       match args with
       | ["merge-base"; _; _] => Some ("abc123" ++ String "010" "")%string
       | ["rev-parse"; _] => Some "abc123"
       | _ => None
       end;
     gitDiff := fun args =>
       match args with
       | ["abc123...feature/login"; _] =>
           Some ("src/auth/login.ts" ++ String "010" "package.json"
                 ++ String "010" "")%string
       | ["abc123...main"; _] =>
           Some ("package.json" ++ String "010" "README.md")%string
       | ["origin/main...HEAD"; _] =>
           Some ("src/auth/login.ts" ++ String "010" "src/ui/form.test.ts")%string
       | _ => None
       end;
     gitFetchThrows := false |}.

(** A working tree with six modified files. *)
Definition busyGit : Git :=
  {| gitRaw := fun _ => None;
     gitDiff := fun args =>
       match args with
       | ["origin/main...HEAD"; _] =>
           Some ("a.ts" ++ String "010" "b.ts" ++ String "010" "c.ts"
                 ++ String "010" "d.ts" ++ String "010" "e.ts"
                 ++ String "010" "f.ts")%string
       | _ => None
       end;
     gitFetchThrows := false |}.

Definition brokenGit : Git :=
  {| gitRaw := fun _ => None;
     gitDiff := fun _ => None;
     gitFetchThrows := true |}.

Definition samplePR : PullRequest.t :=
  PullRequest.mk 12 "Login" "" stateOpen "feature/login" "main" "https://pr/12".

Definition sampleTeam : list TeamMember.t :=
  [ TeamMember.mk "ann" [] 3;
    TeamMember.mk "bob" [] 1;
    TeamMember.mk "cy" [] 1 ].

Definition sampleIssue : Issue.t :=
  Issue.mk 7 "Crash on start" "" stateOpen None ["bug"] "https://issue/7".

(* ================================================================== *)
(** * Facts about the runtime models *)

Unset Implicit Arguments.

Section JsSortFacts.
Variable A : Type.
Variable cmp : A -> A -> Z.

Lemma sortInsert_perm (x : A) (l : list A) :
  Permutation (sortInsert cmp x l) (x :: l).
Proof.
  induction l as [|y l IH]; simpl.
  - apply Permutation_refl.
  - destruct (cmp x y <=? 0).
    + apply Permutation_refl.
    + apply perm_trans with (y :: x :: l).
      * now apply perm_skip.
      * apply perm_swap.
Qed.

Lemma jsSort_perm (l : list A) : Permutation (jsSort cmp l) l.
Proof.
  induction l as [|x l IH]; simpl.
  - apply perm_nil.
  - apply perm_trans with (x :: jsSort cmp l).
    + apply sortInsert_perm.
    + now apply perm_skip.
Qed.

Lemma jsSort_In (l : list A) (x : A) : In x (jsSort cmp l) <-> In x l.
Proof.
  split; apply Permutation_in;
    [apply jsSort_perm | apply Permutation_sym, jsSort_perm].
Qed.

Lemma jsSort_length (l : list A) :
  List.length (jsSort cmp l) = List.length l.
Proof. apply Permutation_length, jsSort_perm. Qed.

Lemma jsSort_nil_inv (l : list A) : jsSort cmp l = [] -> l = [].
Proof.
  intro H. apply Permutation_nil. rewrite <- H.
  apply jsSort_perm.
Qed.

(** Only the answers on the elements at hand matter. *)
Lemma sortInsert_ext (cmp' : A -> A -> Z) (x : A) (l : list A) :
  (forall y, In y l -> cmp x y = cmp' x y) ->
  sortInsert cmp x l = sortInsert cmp' x l.
Proof.
  induction l as [|y l IH]; simpl; intro H; [reflexivity|].
  rewrite <- (H y (or_introl eq_refl)).
  destruct (cmp x y <=? 0); [reflexivity|].
  f_equal. apply IH. intros z Hz. apply H. now right.
Qed.

Section Consistent.
(** A consistent comparator: any two elements are comparable, and
    "not after" is transitive. *)
Hypothesis cmp_total : forall a b, cmp a b <= 0 \/ cmp b a <= 0.
Hypothesis cmp_trans :
  forall a b c, cmp a b <= 0 -> cmp b c <= 0 -> cmp a c <= 0.

Lemma sortInsert_sorted (x : A) (l : list A) :
  StronglySorted (fun a b => cmp a b <= 0) l ->
  StronglySorted (fun a b => cmp a b <= 0) (sortInsert cmp x l).
Proof.
  induction 1 as [|y l Hs IH Hy]; simpl.
  - constructor; constructor.
  - destruct (cmp x y <=? 0) eqn:E.
    + apply Z.leb_le in E.
      constructor; [now constructor|].
      constructor; [exact E|].
      apply Forall_forall. intros z Hz.
      apply cmp_trans with y; [exact E|].
      exact (proj1 (Forall_forall _ _) Hy z Hz).
    + apply Z.leb_gt in E.
      constructor; [exact IH|].
      apply Forall_forall. intros z Hz.
      apply (Permutation_in _ (sortInsert_perm x l)) in Hz.
      destruct Hz as [<-|Hz].
      * destruct (cmp_total y x) as [H|H]; [exact H|lia].
      * exact (proj1 (Forall_forall _ _) Hy z Hz).
Qed.

Lemma jsSort_sorted (l : list A) :
  StronglySorted (fun a b => cmp a b <= 0) (jsSort cmp l).
Proof.
  induction l as [|x l IH]; simpl.
  - constructor.
  - now apply sortInsert_sorted.
Qed.

(** The head of the sorted array is not after any element. *)
Lemma jsSort_head (l : list A) (x : A) (rest : list A) :
  jsSort cmp l = x :: rest -> forall y, In y l -> cmp x y <= 0.
Proof.
  intros E y Hy.
  pose proof (jsSort_sorted l) as Hs. rewrite E in Hs.
  apply jsSort_In in Hy. rewrite E in Hy.
  destruct Hy as [<-|Hy].
  - now destruct (cmp_total x x).
  - inversion Hs as [|? ? _ Hall]; subst.
    exact (proj1 (Forall_forall _ _) Hall y Hy).
Qed.
End Consistent.
End JsSortFacts.

Lemma jsSort_ext (A : Type) (cmp cmp' : A -> A -> Z) (l : list A) :
  (forall a b, In a l -> In b l -> cmp a b = cmp' a b) ->
  jsSort cmp l = jsSort cmp' l.
Proof.
  induction l as [|x l IH]; simpl; intro H; [reflexivity|].
  rewrite IH by (intros a b Ha Hb; apply H; right; assumption).
  apply sortInsert_ext. intros y Hy.
  apply H; [now left|]. right. exact (proj1 (jsSort_In _ cmp' l y) Hy).
Qed.

Lemma sortInsert_map (A B : Type) (f : A -> B) (cmp : A -> A -> Z)
      (cmp' : B -> B -> Z) (x : A) (l : list A) :
  (forall a b, cmp' (f a) (f b) = cmp a b) ->
  sortInsert cmp' (f x) (map f l) = map f (sortInsert cmp x l).
Proof.
  intro H. induction l as [|y l IH]; simpl; [reflexivity|].
  rewrite H. destruct (cmp x y <=? 0); simpl; [reflexivity|].
  now rewrite IH.
Qed.

Lemma jsSort_map (A B : Type) (f : A -> B) (cmp : A -> A -> Z)
      (cmp' : B -> B -> Z) (l : list A) :
  (forall a b, cmp' (f a) (f b) = cmp a b) ->
  jsSort cmp' (map f l) = map f (jsSort cmp l).
Proof.
  intro H. induction l as [|x l IH]; simpl; [reflexivity|].
  rewrite IH. now apply sortInsert_map.
Qed.

(* ------------------------------------------------------------------ *)
(** ** The registry as a [Map] *)

Section JsMapFacts.
Variable V : Type.
Implicit Types (m : JsMap V) (k : string) (v : V).

Lemma mapHas_In m k : mapHas m k = true <-> In k (mapKeys m).
Proof.
  induction m as [|[k' v'] m IH]; simpl.
  - split; [discriminate|tauto].
  - rewrite orb_true_iff, IH, String.eqb_eq. tauto.
Qed.

Lemma mapHas_false m k : mapHas m k = false <-> ~ In k (mapKeys m).
Proof.
  rewrite <- mapHas_In. destruct (mapHas m k); split; congruence.
Qed.

Lemma mapKeys_mapSet_has m k v :
  mapHas m k = true -> mapKeys (mapSet m k v) = mapKeys m.
Proof.
  induction m as [|[k' v'] m IH]; simpl; [discriminate|].
  destruct (String.eqb_spec k' k) as [->|Hne]; simpl; [reflexivity|].
  intro H. now rewrite IH.
Qed.

Lemma mapKeys_mapSet_new m k v :
  mapHas m k = false -> mapKeys (mapSet m k v) = mapKeys m ++ [k].
Proof.
  induction m as [|[k' v'] m IH]; simpl; [reflexivity|].
  destruct (String.eqb_spec k' k) as [->|Hne]; simpl; [discriminate|].
  intro H. now rewrite IH.
Qed.

(** [set] keeps the keys distinct. *)
Lemma mapSet_wf m k v : mapWf m -> mapWf (mapSet m k v).
Proof.
  unfold mapWf. intro H.
  destruct (mapHas m k) eqn:E.
  - now rewrite mapKeys_mapSet_has.
  - rewrite mapKeys_mapSet_new by assumption.
    apply mapHas_false in E.
    apply NoDup_app; [exact H | repeat constructor; simpl; tauto |].
    intros x Hx [<-|[]]. contradiction.
Qed.

Lemma mapSet_has m k v k' :
  mapHas (mapSet m k v) k' = mapHas m k' || (k =? k')%string.
Proof.
  induction m as [|[k0 v0] m IH]; simpl.
  - now rewrite orb_false_r.
  - destruct (String.eqb_spec k0 k) as [->|Hne]; simpl.
    + destruct (k =? k')%string; simpl; [reflexivity|].
      now rewrite orb_false_r.
    + rewrite IH. now rewrite orb_assoc.
Qed.

Lemma mapDelete_fresh m k : ~ In k (mapKeys m) -> mapDelete m k = m.
Proof.
  induction m as [|[k' v'] m IH]; simpl; intro H; [reflexivity|].
  destruct (String.eqb_spec k' k) as [->|Hne]; [tauto|].
  f_equal. apply IH. tauto.
Qed.

(** [delete] drops the entry of the key and nothing else. *)
Lemma mapDelete_filter m k :
  mapWf m ->
  mapDelete m k = filter (fun e => negb (fst e =? k)%string) m.
Proof.
  unfold mapWf.
  induction m as [|[k' v'] m IH]; simpl; intro H; [reflexivity|].
  inversion H as [|? ? Hnin Hnd]; subst.
  destruct (String.eqb_spec k' k) as [->|Hne]; simpl.
  - rewrite <- IH by assumption. symmetry. now apply mapDelete_fresh.
  - now rewrite IH.
Qed.

Lemma filter_wf (f : string * V -> bool) m : mapWf m -> mapWf (filter f m).
Proof.
  unfold mapWf, mapKeys.
  induction m as [|[k' v'] m IH]; simpl; intro H; [constructor|].
  inversion H as [|? ? Hnin Hnd]; subst.
  destruct (f (k', v')); simpl; [|now apply IH].
  constructor; [|now apply IH].
  intro Hin. apply Hnin.
  apply in_map_iff in Hin. destruct Hin as [e [He Hin]].
  apply filter_In in Hin. apply in_map_iff. exists e. tauto.
Qed.

Lemma mapDelete_wf m k : mapWf m -> mapWf (mapDelete m k).
Proof.
  intro H. rewrite mapDelete_filter by assumption. now apply filter_wf.
Qed.
End JsMapFacts.

(* ------------------------------------------------------------------ *)
(** ** Task trees *)

(** Induction over a task and, through the array, its sub-tasks. *)
Lemma Task_nested_ind (P : Task.t -> Prop) :
  (forall i d c r, P (Task.mk i d c r None)) ->
  (forall i d c r l, Forall P l -> P (Task.mk i d c r (Some l))) ->
  forall t, P t.
Proof.
  intros Hleaf Hnode. fix IH 1.
  intros [i d c r [l|]].
  - apply Hnode. revert l. fix IHl 1.
    intros [|x rest].
    + constructor.
    + constructor; [apply IH | apply IHl].
  - apply Hleaf.
Qed.

Lemma findTasks_unfold (taskId : string) (l : list Task.t) :
  (fix findTasks (l : list Task.t) : option Task.t :=
     match l with
     | [] => None
     | t' :: rest =>
         match findTaskIn taskId t' with
         | Some found => Some found
         | None => findTasks rest
         end
     end) l = findTaskById l taskId.
Proof.
  induction l as [|t' rest IH]; simpl; [reflexivity|].
  now rewrite IH.
Qed.

(** [findTaskById] obeys the equation its loop body reads as. *)
Lemma findTaskById_eq (task : Task.t) (rest : list Task.t) (taskId : string) :
  findTaskById (task :: rest) taskId =
  if (Task.id task =? taskId)%string then Some task
  else
    match Task.subtasks task with
    | Some subs =>
        match findTaskById subs taskId with
        | Some found => Some found
        | None => findTaskById rest taskId
        end
    | None => findTaskById rest taskId
    end.
Proof.
  destruct task as [i d c r subs]. cbn [findTaskById findTaskIn Task.id Task.subtasks].
  destruct (i =? taskId)%string; [reflexivity|].
  destruct subs as [l|]; [|reflexivity].
  now rewrite findTasks_unfold.
Qed.

Lemma flattenAll_unfold (l : list Task.t) :
  (fix flattenAll (l : list Task.t) : list Task.t :=
     match l with
     | [] => []
     | t' :: rest => flattenTask t' ++ flattenAll rest
     end) l = flattenTasks l.
Proof.
  induction l as [|t' rest IH]; simpl; [reflexivity|].
  now rewrite IH.
Qed.

Lemma find_app (A : Type) (f : A -> bool) (l1 l2 : list A) :
  find f (l1 ++ l2) =
  match find f l1 with
  | Some x => Some x
  | None => find f l2
  end.
Proof.
  induction l1 as [|x l1 IH]; simpl; [reflexivity|].
  now destruct (f x).
Qed.

Lemma findTaskIn_find (taskId : string) (t : Task.t) :
  findTaskIn taskId t =
  find (fun t' => (Task.id t' =? taskId)%string) (flattenTask t).
Proof.
  induction t as [i d c r|i d c r l IH] using Task_nested_ind;
    cbn [findTaskIn flattenTask find Task.id];
    destruct (i =? taskId)%string; try reflexivity.
  rewrite findTasks_unfold, flattenAll_unfold.
  induction IH as [|x rest Hx _ IHrest]; simpl; [reflexivity|].
  now rewrite find_app, <- Hx, IHrest.
Qed.

(** The search returns the first task of the tree, in document order,
    that carries the id. *)
Lemma findTaskById_find (tasks : list Task.t) (taskId : string) :
  findTaskById tasks taskId =
  find (fun t => (Task.id t =? taskId)%string) (flattenTasks tasks).
Proof.
  induction tasks as [|t rest IH]; simpl; [reflexivity|].
  now rewrite find_app, <- findTaskIn_find, IH.
Qed.

(* ------------------------------------------------------------------ *)
(** ** Work items and their order *)

Lemma workItemCompare_total (a b : WorkItem) :
  workItemCompare a b <= 0 \/ workItemCompare b a <= 0.
Proof.
  unfold workItemCompare.
  rewrite (Z.eqb_sym (priority b) (priority a)).
  destruct (priority a =? priority b) eqn:E; simpl; lia.
Qed.

Lemma workItemCompare_trans (a b c : WorkItem) :
  workItemCompare a b <= 0 -> workItemCompare b c <= 0 ->
  workItemCompare a c <= 0.
Proof.
  unfold workItemCompare.
  destruct (priority a =? priority b) eqn:E1;
    destruct (priority b =? priority c) eqn:E2;
    destruct (priority a =? priority c) eqn:E3; simpl;
    rewrite ?Z.eqb_eq, ?Z.eqb_neq in *; lia.
Qed.

(** The selected work item has the highest priority on offer. *)
Lemma sortedWorkItems_head (specs : list Spec.t) (bugs : list Bug.t)
      (mostRecent : WorkItem) (rest : list WorkItem) :
  sortedWorkItems specs bugs = mostRecent :: rest ->
  In mostRecent (activeWorkItems specs bugs)
  /\ forall other, In other (activeWorkItems specs bugs) ->
                   priority other <= priority mostRecent.
Proof.
  unfold sortedWorkItems. intro E. split.
  - apply (jsSort_In _ workItemCompare). rewrite E. now left.
  - intros other Hin.
    pose proof (jsSort_head _ workItemCompare workItemCompare_total
                            workItemCompare_trans _ _ _ E other Hin) as H.
    unfold workItemCompare in H.
    destruct (priority mostRecent =? priority other) eqn:Ep; simpl in H.
    + apply Z.eqb_eq in Ep. lia.
    + lia.
Qed.

Lemma primaryWorkItems_In (specs : list Spec.t) (bugs : list Bug.t)
      (wi : WorkItem) :
  In wi (primaryWorkItems specs bugs) <->
  (exists spec, In spec specs /\ hasInProgress spec = true
                /\ wi = specWorkItem 100 spec)
  \/ (exists bug, In bug bugs /\ isActiveBug bug = true
                  /\ wi = bugWorkItem 90 bug).
Proof.
  unfold primaryWorkItems. rewrite in_app_iff, !in_map_iff.
  split.
  - intros [[spec [<- H]]|[bug [<- H]]]; apply filter_In in H;
      [left; exists spec | right; exists bug]; tauto.
  - intros [[spec [H1 [H2 ->]]]|[bug [H1 [H2 ->]]]];
      [left; exists spec | right; exists bug];
      (split; [reflexivity | apply filter_In; tauto]).
Qed.

Lemma activeWorkItems_primary (specs : list Spec.t) (bugs : list Bug.t)
      (wi : WorkItem) :
  In wi (primaryWorkItems specs bugs) ->
  activeWorkItems specs bugs = primaryWorkItems specs bugs.
Proof.
  unfold activeWorkItems.
  destruct (primaryWorkItems specs bugs); [intros []|reflexivity].
Qed.

(** No candidate at all: nothing is in progress, every spec is completed
    and every bug resolved. *)
Lemma activeWorkItems_nil (specs : list Spec.t) (bugs : list Bug.t) :
  activeWorkItems specs bugs = [] <->
  Forall (fun spec => hasInProgress spec = false
                      /\ Spec.status spec = "completed") specs
  /\ Forall (fun bug => Bug.status bug = "resolved") bugs.
Proof.
  assert (Hmap : forall (A B : Type) (f : A -> B) l, map f l = [] <-> l = []).
  { intros A B f [|x l]; simpl; split; congruence. }
  assert (Hfil : forall (A : Type) (f : A -> bool) l,
             filter f l = [] <-> Forall (fun x => f x = false) l).
  { intros A f l. induction l as [|x l IH]; simpl.
    - split; [constructor|reflexivity].
    - destruct (f x) eqn:E; split; intro H.
      + discriminate.
      + inversion H; congruence.
      + constructor; [assumption|now apply IH].
      + inversion H; now apply IH. }
  assert (Hact : forall bug, Bug.status bug = "resolved" ->
                             isActiveBug bug = false).
  { intros bug E. unfold isActiveBug. now rewrite E. }
  unfold activeWorkItems.
  destruct (primaryWorkItems specs bugs) as [|wi items] eqn:Ep.
  - unfold primaryWorkItems in Ep. apply app_eq_nil in Ep.
    destruct Ep as [Es Eb]. rewrite Hmap, Hfil in Es, Eb.
    unfold fallbackWorkItems. split.
    + intro E. apply app_eq_nil in E. destruct E as [Fs Fb].
      rewrite Hmap, Hfil in Fs, Fb. rewrite !Forall_forall in *.
      split.
      * intros spec Hin. split; [now apply Es|].
        specialize (Fs spec Hin). apply negb_false_iff in Fs.
        now apply String.eqb_eq.
      * intros bug Hin. specialize (Fb bug Hin).
        apply negb_false_iff in Fb. now apply String.eqb_eq.
    + intros [Hs Hb]. rewrite !Forall_forall in *.
      replace (filter _ specs) with (@nil Spec.t).
      * replace (filter _ bugs) with (@nil Bug.t); [reflexivity|].
        symmetry. apply Hfil, Forall_forall. intros bug Hin.
        rewrite (Hb bug Hin). reflexivity.
      * symmetry. apply Hfil, Forall_forall. intros spec Hin.
        rewrite (proj2 (Hs spec Hin)). reflexivity.
  - split; [discriminate|].
    intros [Hs Hb]. exfalso. rewrite !Forall_forall in *.
    assert (Hin : In wi (primaryWorkItems specs bugs))
      by (rewrite Ep; now left).
    apply primaryWorkItems_In in Hin.
    destruct Hin as [[spec [H1 [H2 _]]]|[bug [H1 [H2 _]]]].
    + rewrite (proj1 (Hs spec H1)) in H2. discriminate.
    + rewrite (Hact bug (Hb bug H1)) in H2. discriminate.
Qed.

(* ------------------------------------------------------------------ *)
(** ** Sessions of one project *)

Lemma Permutation_filter (A : Type) (f : A -> bool) (l l' : list A) :
  Permutation l l' -> Permutation (filter f l) (filter f l').
Proof.
  induction 1 as [|x l l' _ IH|x y l|l l' l'' _ IH1 _ IH2]; simpl.
  - constructor.
  - destruct (f x); [now constructor|assumption].
  - destruct (f x), (f y); try apply Permutation_refl. apply perm_swap.
  - now apply perm_trans with (filter f l').
Qed.

Lemma StronglySorted_impl (A : Type) (R R' : A -> A -> Prop) (l : list A) :
  (forall a b, R a b -> R' a b) -> StronglySorted R l -> StronglySorted R' l.
Proof.
  intros HR. induction 1 as [|x l _ IH Hall]; constructor; [assumption|].
  apply Forall_forall. intros y Hy. apply HR.
  exact (proj1 (Forall_forall _ _) Hall y Hy).
Qed.

Lemma activeSessionOf_common (path : string) (state : ProjectState)
      (specs : list Spec.t) (bugs : list Bug.t) (now : Z) :
  exists display modified,
    Session.common (activeSessionOf path state specs bugs now) =
    sessionBase path state display modified.
Proof.
  unfold activeSessionOf.
  destruct (sortedWorkItems specs bugs) as [|[[spec|bug] m p] rest];
    cbn; eauto.
Qed.

Lemma activeSessionOf_path (path : string) (state : ProjectState)
      (specs : list Spec.t) (bugs : list Bug.t) (now : Z) :
  Session.projectPath
    (Session.common (activeSessionOf path state specs bugs now)) = path.
Proof.
  destruct (activeSessionOf_common path state specs bugs now)
    as [d [m ->]]. reflexivity.
Qed.

Section SnapshotFacts.
Variable localeCompare : string -> string -> Z.
Variable w : World.

Lemma allActiveSessions_paths (registry : Registry) (s : Session.t) :
  In s (allActiveSessions w registry) ->
  exists state,
    In (Session.projectPath (Session.common s), state) registry
    /\ Project.hasActiveSession (project state) = true.
Proof.
  induction registry as [|[p st] rest IH]; simpl; [intros []|].
  destruct (Project.hasActiveSession (project st)) eqn:E; simpl.
  - intros [<-|Hin].
    + exists st. rewrite activeSessionOf_path. auto.
    + destruct (IH Hin) as [state [H1 H2]]. exists state. auto.
  - intro Hin. destruct (IH Hin) as [state [H1 H2]]. exists state. auto.
Qed.

Lemma sessionsOf_fresh (registry : Registry) (path : string) :
  ~ In path (mapKeys registry) ->
  sessionsOf path (allActiveSessions w registry) = [].
Proof.
  intro Hnin. unfold sessionsOf.
  destruct (filter _ _) as [|s l] eqn:E; [reflexivity|].
  exfalso. apply Hnin.
  assert (Hin : In s (s :: l)) by now left.
  rewrite <- E in Hin. apply filter_In in Hin. destruct Hin as [Hin Hp].
  apply String.eqb_eq in Hp.
  destruct (allActiveSessions_paths _ _ Hin) as [state [H1 _]].
  rewrite Hp in H1. apply in_map_iff. now exists (path, state).
Qed.

Lemma sessionsOf_all (registry : Registry) (path : string)
      (state : ProjectState) :
  mapWf registry -> In (path, state) registry ->
  sessionsOf path (allActiveSessions w registry) =
  if Project.hasActiveSession (project state)
  then [activeSessionOf path state (getAllSpecs w (parser state))
                        (getAllBugs w (parser state)) (now w)]
  else [].
Proof.
  unfold mapWf.
  induction registry as [|[p st] rest IH]; simpl; [intros _ []|].
  intros Hnd Hin. inversion Hnd as [|? ? Hnin Hnd']; subst.
  destruct Hin as [Heq|Hin].
  - injection Heq as -> ->.
    pose proof (sessionsOf_fresh rest path Hnin) as Hrest.
    destruct (Project.hasActiveSession (project state)); simpl.
    + unfold sessionsOf in *. simpl.
      rewrite activeSessionOf_path, String.eqb_refl. now rewrite Hrest.
    + exact Hrest.
  - assert (Hne : p <> path).
    { intros ->. apply Hnin. apply in_map_iff. now exists (path, state). }
    destruct (Project.hasActiveSession (project st)); simpl.
    + unfold sessionsOf in *. simpl. rewrite activeSessionOf_path.
      apply String.eqb_neq in Hne. rewrite Hne. now apply IH.
    + now apply IH.
Qed.

(** The snapshot holds, for a registered project, its one session if a
    process is attached and nothing otherwise. *)
Lemma sessionsOf_collect (registry : Registry) (path : string)
      (state : ProjectState) :
  mapWf registry -> In (path, state) registry ->
  sessionsOf path (collectActiveSessions localeCompare w registry) =
  if Project.hasActiveSession (project state)
  then [activeSessionOf path state (getAllSpecs w (parser state))
                        (getAllBugs w (parser state)) (now w)]
  else [].
Proof.
  intros Hwf Hin.
  pose proof (sessionsOf_all registry path state Hwf Hin) as Hall.
  assert (Hperm :
            Permutation
              (sessionsOf path (allActiveSessions w registry))
              (sessionsOf path
                 (collectActiveSessions localeCompare w registry))).
  { apply Permutation_filter, Permutation_sym, jsSort_perm. }
  rewrite Hall in Hperm.
  destruct (Project.hasActiveSession (project state)).
  - now apply Permutation_length_1_inv in Hperm.
  - now apply Permutation_nil in Hperm.
Qed.

Lemma sessionsOf_collect_fresh (registry : Registry) (path : string) :
  ~ In path (mapKeys registry) ->
  sessionsOf path (collectActiveSessions localeCompare w registry) = [].
Proof.
  intro Hnin. apply Permutation_nil.
  rewrite <- (sessionsOf_fresh registry path Hnin).
  apply Permutation_filter, Permutation_sym, jsSort_perm.
Qed.

Lemma allActiveSessions_length (registry : Registry) :
  (List.length (allActiveSessions w registry) <= List.length registry)%nat.
Proof.
  induction registry as [|[p st] rest IH]; simpl; [lia|].
  destruct (Project.hasActiveSession (project st)); simpl; lia.
Qed.

Lemma allActiveSessions_active (registry : Registry) :
  Forall (fun s =>
            Session.isCurrentlyActive (Session.common s) = true
            /\ Session.hasActiveSession (Session.common s) = true)
         (allActiveSessions w registry).
Proof.
  induction registry as [|[p st] rest IH]; simpl; [constructor|].
  destruct (Project.hasActiveSession (project st)); simpl; [|assumption].
  constructor; [|assumption].
  destruct (activeSessionOf_common p st (getAllSpecs w (parser st))
                                   (getAllBugs w (parser st)) (now w))
    as [d [m ->]]. now split.
Qed.
End SnapshotFacts.

(* ------------------------------------------------------------------ *)
(** ** The comparators *)

Lemma codeUnitCompare_total (a b : string) :
  codeUnitCompare a b <= 0 \/ codeUnitCompare b a <= 0.
Proof.
  unfold codeUnitCompare.
  destruct (String_as_OT.compare_spec a b) as [_|_|H]; [left; lia..|].
  right. unfold String_as_OT.lt in H. rewrite H. lia.
Qed.

Lemma codeUnitCompare_trans (a b c : string) :
  codeUnitCompare a b <= 0 -> codeUnitCompare b c <= 0 ->
  codeUnitCompare a c <= 0.
Proof.
  unfold codeUnitCompare.
  destruct (String_as_OT.compare_spec a b) as [->|Hab|_]; [intros _ H; exact H| |lia].
  destruct (String_as_OT.compare_spec b c) as [<-|Hbc|_]; [| |lia]; intros _ _.
  - unfold String_as_OT.lt in Hab. rewrite Hab. lia.
  - assert (Hac : String_as_OT.lt a c) by (etransitivity; eassumption).
    unfold String_as_OT.lt in Hac. rewrite Hac. lia.
Qed.

Section SessionOrder.
Variable localeCompare : string -> string -> Z.

Lemma sessionCompare_before (a b : Session.t) :
  sessionCompare localeCompare a b <= 0 <-> orderedBefore localeCompare a b.
Proof.
  unfold sessionCompare, orderedBefore.
  destruct (Session.isCurrentlyActive (Session.common a)),
           (Session.isCurrentlyActive (Session.common b)); simpl;
    split; intro H; try lia; try tauto;
    try (right; split; [reflexivity|exact H]);
    destruct H as [[H1 H2]|[H1 H2]]; try discriminate; try lia.
Qed.

(** While every session is currently active the comparator is the one on
    project names. *)
Lemma sessionCompare_active (a b : Session.t) :
  Session.isCurrentlyActive (Session.common a) = true ->
  Session.isCurrentlyActive (Session.common b) = true ->
  sessionCompare localeCompare a b = projectNameCompare localeCompare a b.
Proof.
  unfold sessionCompare, projectNameCompare. now intros -> ->.
Qed.

Hypothesis localeCompare_total :
  forall a b, localeCompare a b <= 0 \/ localeCompare b a <= 0.
Hypothesis localeCompare_trans :
  forall a b c,
    localeCompare a b <= 0 -> localeCompare b c <= 0 ->
    localeCompare a c <= 0.

Lemma sessionCompare_total (a b : Session.t) :
  sessionCompare localeCompare a b <= 0
  \/ sessionCompare localeCompare b a <= 0.
Proof.
  unfold sessionCompare.
  destruct (Session.isCurrentlyActive (Session.common a)),
           (Session.isCurrentlyActive (Session.common b)); simpl;
    try apply localeCompare_total; lia.
Qed.

Lemma sessionCompare_trans (a b c : Session.t) :
  sessionCompare localeCompare a b <= 0 ->
  sessionCompare localeCompare b c <= 0 ->
  sessionCompare localeCompare a c <= 0.
Proof.
  unfold sessionCompare.
  destruct (Session.isCurrentlyActive (Session.common a)),
           (Session.isCurrentlyActive (Session.common b)),
           (Session.isCurrentlyActive (Session.common c)); simpl;
    try apply localeCompare_trans; lia.
Qed.
End SessionOrder.

(* ================================================================== *)
(** * The active-session resolver *)

(** C1. With the registry a [Map] (distinct keys), the snapshot of
    [collectActiveSessions] has at most one session per project path, has
    none for a registered project whose [hasActiveSession] flag is false,
    and is no longer than the registry. *)
Theorem collect_one_session_per_workspace
        (localeCompare : string -> string -> Z) (w : World)
        (registry : Registry) :
  mapWf registry ->
  (forall path,
      (List.length
         (sessionsOf path (collectActiveSessions localeCompare w registry))
       <= 1)%nat)
  /\ (forall path state,
         In (path, state) registry ->
         Project.hasActiveSession (project state) = false ->
         sessionsOf path (collectActiveSessions localeCompare w registry) = [])
  /\ (List.length (collectActiveSessions localeCompare w registry)
      <= List.length registry)%nat.
Proof.
  intro Hwf. split; [|split].
  - intro path.
    destruct (in_dec string_dec path (mapKeys registry)) as [Hin|Hnin].
    + apply in_map_iff in Hin. destruct Hin as [[p state] [Hp Hin]].
      simpl in Hp. subst p.
      rewrite (sessionsOf_collect localeCompare w registry path state Hwf Hin).
      destruct (Project.hasActiveSession (project state)); simpl; lia.
    + rewrite sessionsOf_collect_fresh by assumption. simpl. lia.
  - intros path state Hin Hflag.
    rewrite (sessionsOf_collect localeCompare w registry path state Hwf Hin).
    now rewrite Hflag.
  - unfold collectActiveSessions. rewrite jsSort_length.
    apply allActiveSessions_length.
Qed.

Lemma collect_one_session_per_workspace_witness :
  mapWf sampleRegistry
  /\ (forall path,
         (List.length
            (sessionsOf path
               (collectActiveSessions codeUnitCompare sampleWorld
                                      sampleRegistry)) <= 1)%nat)
  /\ sessionsOf "/w/c"
       (collectActiveSessions codeUnitCompare sampleWorld sampleRegistry) = []
  /\ (List.length
        (collectActiveSessions codeUnitCompare sampleWorld sampleRegistry)
      <= 3)%nat.
Proof.
  assert (Hwf : mapWf sampleRegistry).
  { unfold mapWf. simpl. repeat constructor; simpl; intuition discriminate. }
  destruct (collect_one_session_per_workspace codeUnitCompare sampleWorld
              sampleRegistry Hwf) as [H1 [H2 H3]].
  split; [exact Hwf|]. split; [exact H1|]. split; [|exact H3].
  apply (H2 "/w/c" (stateOf projectC)); [simpl; tauto | reflexivity].
Defined.

(** C2. In a project with an attached process that offers both a spec with
    a task in progress and a bug in one of [analyzing], [fixing],
    [verifying], the one session of the project is the spec variant: it
    carries the name and status of a spec that has a task in progress, is
    not ad-hoc, and no bug-variant session stands for the project. *)
Theorem spec_in_progress_beats_active_bug
        (localeCompare : string -> string -> Z) (w : World)
        (registry : Registry) (path : string) (state : ProjectState)
        (spec : Spec.t) (bug : Bug.t) :
  mapWf registry ->
  In (path, state) registry ->
  Project.hasActiveSession (project state) = true ->
  In spec (getAllSpecs w (parser state)) -> hasInProgress spec = true ->
  In bug (getAllBugs w (parser state)) -> isActiveBug bug = true ->
  exists chosen fields,
    In chosen (getAllSpecs w (parser state))
    /\ hasInProgress chosen = true
    /\ sessionsOf path (collectActiveSessions localeCompare w registry) =
       [Session.spec
          (Session.mkBase path (Project.name (project state))
                          (orElse (Spec.displayName chosen) (Spec.name chosen))
                          (orEpoch (Spec.lastModified chosen)) true true
                          (Project.gitBranch (project state))
                          (Project.gitCommit (project state)))
          fields]
    /\ Session.specName fields = Spec.name chosen
    /\ Session.status fields = Some (Spec.status chosen)
    /\ Session.tasks fields = Spec.tasks chosen
    /\ Session.isAdHoc fields = None
    /\ Forall (fun s => Session.isSpec s = true)
              (sessionsOf path
                 (collectActiveSessions localeCompare w registry))
    /\ (forall base bugFields,
           ~ In (Session.bug base bugFields)
                (sessionsOf path
                   (collectActiveSessions localeCompare w registry))).
Proof.
  intros Hwf Hin Hflag Hspec Hprog Hbug Hact.
  rewrite (sessionsOf_collect localeCompare w registry path state Hwf Hin).
  rewrite Hflag.
  set (specs := getAllSpecs w (parser state)) in *.
  set (bugs := getAllBugs w (parser state)) in *.
  assert (Hcand : In (specWorkItem 100 spec) (primaryWorkItems specs bugs)).
  { apply primaryWorkItems_In. left. exists spec. auto. }
  pose proof (activeWorkItems_primary specs bugs _ Hcand) as Hprim.
  unfold activeSessionOf.
  destruct (sortedWorkItems specs bugs) as [|mostRecent rest] eqn:E.
  - apply jsSort_nil_inv in E. rewrite Hprim in E. rewrite E in Hcand.
    destruct Hcand.
  - destruct (sortedWorkItems_head specs bugs mostRecent rest E)
      as [Hmem Hmax].
    rewrite Hprim in Hmem, Hmax.
    specialize (Hmax _ Hcand). simpl in Hmax.
    apply primaryWorkItems_In in Hmem.
    destruct Hmem as [[chosen [H1 [H2 ->]]]|[b [_ [_ ->]]]].
    + exists chosen. unfold renderWorkItem, renderSpec, sessionBase.
      cbn [item lastModified specWorkItem].
      eexists. split; [exact H1|]. split; [exact H2|].
      split; [reflexivity|].
      cbn [Session.specName Session.status Session.tasks Session.isAdHoc].
      repeat split.
      * repeat constructor.
      * intros base bugFields [Hb|[]]. discriminate.
    + simpl in Hmax. lia.
Qed.

Lemma spec_in_progress_beats_active_bug_witness :
  exists chosen fields,
    In chosen (getAllSpecs sampleWorld "/w/a")
    /\ hasInProgress chosen = true
    /\ sessionsOf "/w/a"
         (collectActiveSessions codeUnitCompare sampleWorld sampleRegistry) =
       [Session.spec
          (Session.mkBase "/w/a" "alpha"
                          (orElse (Spec.displayName chosen) (Spec.name chosen))
                          (orEpoch (Spec.lastModified chosen)) true true
                          (Some "main") None)
          fields]
    /\ Session.specName fields = Spec.name chosen
    /\ Session.status fields = Some (Spec.status chosen)
    /\ Session.tasks fields = Spec.tasks chosen
    /\ Session.isAdHoc fields = None
    /\ Forall (fun s => Session.isSpec s = true)
              (sessionsOf "/w/a"
                 (collectActiveSessions codeUnitCompare sampleWorld
                                        sampleRegistry))
    /\ (forall base bugFields,
           ~ In (Session.bug base bugFields)
                (sessionsOf "/w/a"
                   (collectActiveSessions codeUnitCompare sampleWorld
                                          sampleRegistry))).
Proof.
  apply (spec_in_progress_beats_active_bug codeUnitCompare sampleWorld
           sampleRegistry "/w/a" (stateOf projectA) specInFlight bugFixing).
  - unfold mapWf. simpl. repeat constructor; simpl; intuition discriminate.
  - simpl. tauto.
  - reflexivity.
  - simpl. tauto.
  - reflexivity.
  - simpl. tauto.
  - reflexivity.
Defined.

(** C3. For a consistent [localeCompare], the list returned by
    [collectActiveSessions] has every session with [isCurrentlyActive]
    true before every session with it false, and within each group the
    project names ascend. *)
Theorem collect_ordered_by_activity_then_name
        (localeCompare : string -> string -> Z) (w : World)
        (registry : Registry) :
  (forall a b, localeCompare a b <= 0 \/ localeCompare b a <= 0) ->
  (forall a b c,
      localeCompare a b <= 0 -> localeCompare b c <= 0 ->
      localeCompare a c <= 0) ->
  StronglySorted (orderedBefore localeCompare)
                 (collectActiveSessions localeCompare w registry).
Proof.
  intros Htotal Htrans. unfold collectActiveSessions.
  apply StronglySorted_impl
    with (R := fun a b => sessionCompare localeCompare a b <= 0).
  - intros a b. apply sessionCompare_before.
  - apply jsSort_sorted.
    + apply sessionCompare_total, Htotal.
    + apply sessionCompare_trans, Htrans.
Qed.

Lemma collect_ordered_by_activity_then_name_witness :
  StronglySorted (orderedBefore codeUnitCompare)
                 (collectActiveSessions codeUnitCompare sampleWorld
                                        sampleRegistry).
Proof.
  apply (collect_ordered_by_activity_then_name codeUnitCompare sampleWorld
           sampleRegistry).
  - exact codeUnitCompare_total.
  - exact codeUnitCompare_trans.
Defined.

(** C10. Every session [collectActiveSessions] returns has
    [isCurrentlyActive] and [hasActiveSession] true, so the returned list
    is the pushed sessions sorted by project name alone. *)
Theorem collect_sessions_all_active
        (localeCompare : string -> string -> Z) (w : World)
        (registry : Registry) :
  Forall (fun s =>
            Session.isCurrentlyActive (Session.common s) = true
            /\ Session.hasActiveSession (Session.common s) = true)
         (collectActiveSessions localeCompare w registry)
  /\ collectActiveSessions localeCompare w registry =
     jsSort (projectNameCompare localeCompare) (allActiveSessions w registry).
Proof.
  pose proof (allActiveSessions_active w registry) as Hall.
  rewrite Forall_forall in Hall. split.
  - apply Forall_forall. intros s Hs. apply Hall.
    unfold collectActiveSessions in Hs. now apply jsSort_In in Hs.
  - unfold collectActiveSessions. apply jsSort_ext. intros a b Ha Hb.
    apply sessionCompare_active; now apply Hall.
Qed.

(** The scenario of the specification: project A has a spec with task 2.3
    in progress, project B only a completed spec and a resolved bug,
    project C no attached process. *)
Example scenario_snapshot :
  map (fun s => (Session.projectPath (Session.common s),
                 Session.isSpec s, isAdHocSession s))
      (collectActiveSessions codeUnitCompare sampleWorld sampleRegistry)
  = [("/w/a", true, false); ("/w/b", true, true)].
Proof. reflexivity. Qed.

(** C5. A bug work item is rendered as the bug variant whose
    [nextCommand] is the table's command for the bug's status, and whose
    [bugSeverity] is the severity of the bug's report when it has one. *)
Theorem bug_session_next_command
        (path : string) (state : ProjectState) (bug : Bug.t)
        (modified prio : Z) (verb : option string) :
  In (Bug.status bug, verb) nextCommandTable ->
  exists base fields,
    renderWorkItem path state
      {| item := BugItem bug; lastModified := modified; priority := prio |}
    = Session.bug base fields
    /\ Session.bugName fields = Bug.name bug
    /\ Session.bugStatus fields = Bug.status bug
    /\ Session.nextCommand fields = commandText verb (Bug.name bug)
    /\ Session.bugSeverity fields =
       match Bug.report bug with
       | Some r => BugReport.severity r
       | None => None
       end.
Proof.
  intro Htable. unfold renderWorkItem, renderBug. cbn [item lastModified].
  eexists. eexists. split; [reflexivity|].
  cbn [Session.bugName Session.bugStatus Session.nextCommand
       Session.bugSeverity].
  repeat split.
  unfold nextCommandFor, nextCommandTable in *. simpl in Htable.
  destruct Htable as [H|[H|[H|[H|[H|[H|[]]]]]]];
    injection H as Hs <-; rewrite <- Hs; reflexivity.
Qed.

Lemma bug_session_next_command_witness :
  exists base fields,
    renderWorkItem "/w/a" (stateOf projectA) (bugWorkItem 90 bugFixing)
    = Session.bug base fields
    /\ Session.bugName fields = "crash"
    /\ Session.bugStatus fields = "fixing"
    /\ Session.nextCommand fields = "/bug-fix crash"
    /\ Session.bugSeverity fields = Some high.
Proof.
  apply (bug_session_next_command "/w/a" (stateOf projectA) bugFixing
           800 90 (Some "fix")).
  simpl. tauto.
Defined.

(** C6. A spec work item is rendered as the spec variant whose [task] is
    the task found in the spec's tree under the in-progress id, and, when
    there is none (no in-progress id, or no task of that id), the
    placeholder with id [session], the spec's display name as description
    and [completed] false. *)
Theorem spec_session_task
        (path : string) (state : ProjectState) (spec : Spec.t)
        (modified prio : Z) :
  exists base fields,
    renderWorkItem path state
      {| item := SpecItem spec; lastModified := modified; priority := prio |}
    = Session.spec base fields
    /\ Session.displayName base =
       orElse (Spec.displayName spec) (Spec.name spec)
    /\ Session.task fields =
       match taskInProgress spec with
       | Some found => found
       | None => Task.mk "session" (Session.displayName base) false [] None
       end.
Proof.
  unfold renderWorkItem, renderSpec. cbn [item lastModified].
  eexists. eexists. split; [reflexivity|].
  cbn [Session.displayName Session.task sessionBase]. split; [reflexivity|].
  unfold findActiveTask, taskInProgress, placeholderTask.
  destruct (Spec.tasks spec) as [ti|]; [|reflexivity].
  destruct (TaskInfo.inProgress ti) as [taskId|]; [|reflexivity].
  unfold truthy. destruct (taskId =? "")%string; simpl; [reflexivity|].
  now rewrite findTaskById_find.
Qed.

(** C7. In a project with an attached process and no candidate work item,
    even after the fallback (so every spec is completed and every bug
    resolved), the one session of the project is the ad-hoc spec variant:
    [isAdHoc] true and the fixed placeholder task. *)
Theorem no_candidate_yields_ad_hoc_session
        (localeCompare : string -> string -> Z) (w : World)
        (registry : Registry) (path : string) (state : ProjectState) :
  mapWf registry ->
  In (path, state) registry ->
  Project.hasActiveSession (project state) = true ->
  activeWorkItems (getAllSpecs w (parser state))
                  (getAllBugs w (parser state)) = [] ->
  (Forall (fun spec => Spec.status spec = "completed")
          (getAllSpecs w (parser state))
   /\ Forall (fun bug => Bug.status bug = "resolved")
             (getAllBugs w (parser state)))
  /\ sessionsOf path (collectActiveSessions localeCompare w registry) =
     [Session.spec
        (Session.mkBase path (Project.name (project state)) "Ad-hoc Session"
                        (now w) true true
                        (Project.gitBranch (project state))
                        (Project.gitCommit (project state)))
        (Session.mkSpec "ad-hoc-session"
                        (Task.mk "session" "Active Claude session" false []
                                 None)
                        None None None None (Some true))].
Proof.
  intros Hwf Hin Hflag Hnone. split.
  - apply activeWorkItems_nil in Hnone. destruct Hnone as [Hs Hb].
    split; [|exact Hb].
    rewrite Forall_forall in *. intros spec Hspec. now apply Hs.
  - rewrite (sessionsOf_collect localeCompare w registry path state Hwf Hin).
    rewrite Hflag. unfold activeSessionOf, sortedWorkItems.
    now rewrite Hnone.
Qed.

Lemma no_candidate_yields_ad_hoc_session_witness :
  (Forall (fun spec => Spec.status spec = "completed")
          (getAllSpecs sampleWorld "/w/b")
   /\ Forall (fun bug => Bug.status bug = "resolved")
             (getAllBugs sampleWorld "/w/b"))
  /\ sessionsOf "/w/b"
       (collectActiveSessions codeUnitCompare sampleWorld sampleRegistry) =
     [Session.spec
        (Session.mkBase "/w/b" "beta" "Ad-hoc Session" 1000 true true
                        None None)
        (Session.mkSpec "ad-hoc-session"
                        (Task.mk "session" "Active Claude session" false []
                                 None)
                        None None None None (Some true))].
Proof.
  apply (no_candidate_yields_ad_hoc_session codeUnitCompare sampleWorld
           sampleRegistry "/w/b" (stateOf projectB)).
  - unfold mapWf. simpl. repeat constructor; simpl; intuition discriminate.
  - simpl. tauto.
  - reflexivity.
  - reflexivity.
Defined.

(* ================================================================== *)
(** * Running the handlers *)

Section MonadFacts.
Context {A B : Type}.

Lemma bind_run {m : M A} (k : A -> M B) {s s' : Server}
      {tr : list Effect} {a : A} :
  m s = (tr, s', Done a) ->
  bind m k s =
  (tr ++ traceOf (k a s'), serverOf (k a s'), outcomeOf (k a s')).
Proof.
  intro E. unfold bind. rewrite E.
  now destruct (k a s') as [[tr' s''] r].
Qed.

Lemma bind_thrown {m : M A} (k : A -> M B) {s s' : Server}
      {tr : list Effect} {e : Failure} :
  m s = (tr, s', Thrown e) -> bind m k s = (tr, s', Thrown e).
Proof. intro E. unfold bind. now rewrite E. Qed.

Lemma bind_done_inv (m : M A) (k : A -> M B) (s s2 : Server)
      (tr : list Effect) (b : B) :
  bind m k s = (tr, s2, Done b) ->
  exists tr1 s1 a tr2,
    m s = (tr1, s1, Done a) /\ k a s1 = (tr2, s2, Done b)
    /\ tr = tr1 ++ tr2.
Proof.
  unfold bind. destruct (m s) as [[tr1 s1] [a|e]]; [|discriminate].
  destruct (k a s1) as [[tr2 s2'] r] eqn:E. intro H.
  injection H as <- <- ->. now exists tr1, s1, a, tr2.
Qed.
End MonadFacts.

Lemma call_run (e : Effect) (throws : bool) (f : Failure) (s : Server) :
  call e throws f s =
  ([e], s, if throws then Thrown f else Done tt).
Proof. unfold call, bind, emit, throw, ret. now destruct throws. Qed.

Lemma forEach_clients (mk : nat -> Effect) (cl : list Client) (s : Server) :
  forEach cl
          (fun client =>
             if readyState client =? 1
             then emit (mk (clientId client))
             else ret tt) s =
  (map mk (map clientId (filter (fun c => readyState c =? 1) cl)),
   s, Done tt).
Proof.
  induction cl as [|c cl IH]; cbn [forEach filter]; [reflexivity|].
  unfold bind. destruct (readyState c =? 1);
    [unfold emit at 1 | unfold ret at 1]; rewrite IH; reflexivity.
Qed.

Lemma broadcast_run (msg : Message) (s : Server) :
  broadcast msg s = (sends s msg, s, Done tt).
Proof.
  unfold broadcast, bind, get.
  rewrite (forEach_clients (fun c => Send c msg)). reflexivity.
Qed.

(** Stopping the watchers one after the other, none of them failing. *)
Lemma stopWatchers_run (w : World) (entries : Registry) (s : Server) :
  (forall root, In root (watcherRoots entries) ->
                watcherStopThrows w root = false) ->
  forEach entries
          (fun entry =>
             call (WatcherStop (watcher (snd entry)))
                  (watcherStopThrows w (watcher (snd entry)))
                  (WatcherStopFailed (watcher (snd entry)))) s =
  (map WatcherStop (watcherRoots entries), s, Done tt).
Proof.
  induction entries as [|e entries IH]; simpl; intro H; [reflexivity|].
  unfold bind. rewrite call_run, (H _ (or_introl eq_refl)).
  rewrite IH by (intros root Hin; apply H; now right). reflexivity.
Qed.

(** Stopping the watchers up to the first that fails. *)
Lemma stopWatchers_thrown (w : World) (before after : Registry)
      (e : string * ProjectState) (s : Server) :
  (forall root, In root (watcherRoots before) ->
                watcherStopThrows w root = false) ->
  watcherStopThrows w (watcher (snd e)) = true ->
  forEach (before ++ e :: after)
          (fun entry =>
             call (WatcherStop (watcher (snd entry)))
                  (watcherStopThrows w (watcher (snd entry)))
                  (WatcherStopFailed (watcher (snd entry)))) s =
  (map WatcherStop (watcherRoots before ++ [watcher (snd e)]), s,
   Thrown (WatcherStopFailed (watcher (snd e)))).
Proof.
  intros H He. induction before as [|b before IH]; simpl.
  - unfold bind. rewrite call_run, He. reflexivity.
  - unfold bind. rewrite call_run, (H _ (or_introl eq_refl)).
    rewrite IH by (intros root Hin; apply H; now right). reflexivity.
Qed.

Lemma stopTunnel_run (w : World) (m : TunnelManager) (s : Server) :
  stopTunnel w m s =
  if tunnelActive m then
    if stopTunnelThrows w then ([StopTunnel], s, Thrown StopTunnelFailed)
    else (StopTunnel :: sends s (TunnelStopped None),
          withTunnelManager s
            (Some {| tunnelActive := false; tunnelInfo := None |}),
          Done tt)
  else ([], s, Done tt).
Proof.
  unfold stopTunnel. destruct (tunnelActive m); [|reflexivity].
  unfold bind. rewrite call_run.
  destruct (stopTunnelThrows w); [reflexivity|].
  unfold get, put. rewrite broadcast_run. reflexivity.
Qed.

(* ================================================================== *)
(** * Tunnel stop and teardown *)

(** C8, as the route behaves. With no tunnel active the stop route leaves
    the server as it is; it answers success (after telling the open
    viewers that the tunnel stopped) when a tunnel manager exists, and
    404 [No tunnel manager available] when none was ever created. *)
Theorem tunnel_stop_route_without_tunnel (w : World) (s : Server) :
  tunnelStatusActive s = false ->
  tunnelStopRoute w s =
  match tunnelManager s with
  | Some _ => (sends s (TunnelStopped None), s, Done ReplySuccess)
  | None => ([], s, Done (ReplyError 404 "No tunnel manager available"))
  end.
Proof.
  unfold tunnelStatusActive, tunnelStopRoute. intro Hidle.
  unfold bind at 1. cbn [get].
  destruct (tunnelManager s) as [m|]; [|reflexivity].
  unfold tryCatch, bind.
  rewrite stopTunnel_run, Hidle, broadcast_run. cbn.
  now rewrite app_nil_r.
Qed.

Lemma tunnel_stop_route_without_tunnel_witness :
  tunnelStatusActive idleTunnelServer = false
  /\ tunnelStopRoute sampleWorld idleTunnelServer =
     ([Send 1%nat (TunnelStopped None)], idleTunnelServer, Done ReplySuccess).
Proof.
  split; [reflexivity|].
  apply (tunnel_stop_route_without_tunnel sampleWorld idleTunnelServer).
  reflexivity.
Defined.

(** C8 does not hold as stated: on a server that never created a tunnel
    manager no tunnel is active, and the stop route answers an error. *)
Lemma tunnel_stop_route_replies_404 :
  tunnelStatusActive sampleServer = false
  /\ tunnelStopRoute sampleWorld sampleServer =
     ([], sampleServer,
      Done (ReplyError 404 "No tunnel manager available")).
Proof. split; reflexivity. Qed.

(** C9, as [stop] behaves. The steps run in the order: cancel the rescan
    timer, stop every watcher in registry order, stop the tunnel, close
    the open viewers and forget them all, close the HTTP server. The
    teardown is fail-fast: when stopping a watcher or the tunnel throws,
    [stop] ends there with that failure and runs none of the later steps,
    leaving viewers open and the server state untouched. *)
Theorem stop_order_and_fail_fast (w : World) (s : Server) :
  ((forall root, In root (watcherRoots (projects s)) ->
                 watcherStopThrows w root = false) ->
   (tunnelStatusActive s = true -> stopTunnelThrows w = false) ->
   appCloseThrows w = false ->
   stop w s =
   (timerEffects s
    ++ map WatcherStop (watcherRoots (projects s))
    ++ tunnelEffects s
    ++ map CloseClient (openClients s)
    ++ [AppClose],
    withClients (afterTunnelStop s) [], Done tt))
  /\ (forall before e after,
         projects s = before ++ e :: after ->
         (forall root, In root (watcherRoots before) ->
                       watcherStopThrows w root = false) ->
         watcherStopThrows w (watcher (snd e)) = true ->
         stop w s =
         (timerEffects s
          ++ map WatcherStop (watcherRoots before ++ [watcher (snd e)]),
          s, Thrown (WatcherStopFailed (watcher (snd e)))))
  /\ ((forall root, In root (watcherRoots (projects s)) ->
                    watcherStopThrows w root = false) ->
      tunnelStatusActive s = true ->
      stopTunnelThrows w = true ->
      stop w s =
      (timerEffects s
       ++ map WatcherStop (watcherRoots (projects s))
       ++ [StopTunnel],
       s, Thrown StopTunnelFailed)).
Proof.
  assert (Htimer :
            (match rescanInterval s with
             | Some timer => emit (ClearInterval timer)
             | None => ret tt
             end) s = (timerEffects s, s, Done tt)).
  { unfold timerEffects. now destruct (rescanInterval s). }
  split; [|split].
  - intros Hwatch Htunnel Happ.
    unfold stop. unfold bind at 1. cbn [get].
    rewrite (bind_run _ Htimer). cbn [app].
    rewrite (bind_run _ (stopWatchers_run w (projects s) s Hwatch)).
    unfold tunnelEffects, afterTunnelStop, tunnelStatusActive in *.
    destruct (tunnelManager s) as [m|] eqn:Em.
    + destruct (tunnelActive m) eqn:Ea.
      * assert (Hstop :
                  stopTunnel w m s =
                  (StopTunnel :: sends s (TunnelStopped None),
                   withTunnelManager s
                     (Some {| tunnelActive := false; tunnelInfo := None |}),
                   Done tt))
          by now rewrite stopTunnel_run, Ea, (Htunnel eq_refl).
        rewrite (bind_run _ Hstop).
        unfold bind, get, put, traceOf, serverOf, outcomeOf. cbn [fst snd].
        rewrite forEach_clients, call_run, Happ. cbn [fst snd app].
        unfold openClients. cbn [clients withTunnelManager].
        now rewrite <- ?app_assoc.
      * assert (Hstop : stopTunnel w m s = ([], s, Done tt))
          by now rewrite stopTunnel_run, Ea.
        rewrite (bind_run _ Hstop).
        unfold bind, get, put, traceOf, serverOf, outcomeOf. cbn [fst snd].
        rewrite forEach_clients, call_run, Happ. cbn [fst snd app].
        unfold openClients. now rewrite <- ?app_assoc.
    + unfold bind, get, put, ret, traceOf, serverOf, outcomeOf. cbn [fst snd].
      rewrite forEach_clients, call_run, Happ. cbn [fst snd app].
      unfold openClients. now rewrite <- ?app_assoc.
  - intros before e after Hsplit Hbefore He.
    unfold stop. unfold bind at 1. cbn [get].
    rewrite (bind_run _ Htimer). rewrite Hsplit.
    rewrite (bind_thrown _
               (stopWatchers_thrown w before after e s Hbefore He)).
    reflexivity.
  - intros Hwatch Hactive Hthrows.
    unfold stop. unfold bind at 1. cbn [get].
    rewrite (bind_run _ Htimer).
    rewrite (bind_run _ (stopWatchers_run w (projects s) s Hwatch)).
    unfold tunnelStatusActive in Hactive.
    destruct (tunnelManager s) as [m|]; [|discriminate].
    assert (Hstop : stopTunnel w m s = ([StopTunnel], s, Thrown StopTunnelFailed))
      by now rewrite stopTunnel_run, Hactive, Hthrows.
    rewrite (bind_thrown _ Hstop). reflexivity.
Qed.

Lemma stop_order_and_fail_fast_witness :
  stop sampleWorld tunnelServer =
  ([ClearInterval 7; WatcherStop "/w/b"; WatcherStop "/w/c";
    WatcherStop "/w/a"; StopTunnel; Send 1%nat (TunnelStopped None);
    CloseClient 1; AppClose],
   withClients (afterTunnelStop tunnelServer) [], Done tt)
  /\ stop brokenWatcherWorld tunnelServer =
     ([ClearInterval 7; WatcherStop "/w/b"; WatcherStop "/w/c"],
      tunnelServer, Thrown (WatcherStopFailed "/w/c")).
Proof.
  destruct (stop_order_and_fail_fast sampleWorld tunnelServer)
    as [Hdone _].
  destruct (stop_order_and_fail_fast brokenWatcherWorld tunnelServer)
    as [_ [Hthrown _]].
  split.
  - apply Hdone; reflexivity.
  - apply (Hthrown [("/w/b", stateOf projectB)] ("/w/c", stateOf projectC)
                   [("/w/a", stateOf projectA)]).
    + reflexivity.
    + intros root [<-|[]]. reflexivity.
    + reflexivity.
Defined.

(** C9 does not hold as stated: [stop] cancels the timer before it stops
    any watcher, and when a watcher fails to stop neither the tunnel is
    stopped nor a viewer closed. *)
Lemma stop_cancels_timer_first_and_aborts :
  traceOf (stop sampleWorld tunnelServer) =
  [ClearInterval 7; WatcherStop "/w/b"; WatcherStop "/w/c";
   WatcherStop "/w/a"; StopTunnel; Send 1%nat (TunnelStopped None);
   CloseClient 1; AppClose]
  /\ stop brokenWatcherWorld tunnelServer =
     ([ClearInterval 7; WatcherStop "/w/b"; WatcherStop "/w/c"],
      tunnelServer, Thrown (WatcherStopFailed "/w/c"))
  /\ tunnelStatusActive tunnelServer = true
  /\ openClients tunnelServer = [1%nat].
Proof. repeat split. Qed.

(* ================================================================== *)
(** * The periodic rescan *)

Lemma withPath_same (p : Project.t) :
  Project.withPath p (Project.path p) = p.
Proof. now destruct p. Qed.

Lemma mapDelete_app (V : Type) (kept rest : JsMap V) (k : string) (v : V) :
  ~ In k (mapKeys kept) ->
  mapDelete (kept ++ (k, v) :: rest) k = kept ++ rest.
Proof.
  induction kept as [|[k' v'] kept IH]; simpl; intro H.
  - now rewrite String.eqb_refl.
  - destruct (String.eqb_spec k' k) as [->|Hne]; [tauto|].
    f_equal. apply IH. tauto.
Qed.

Section RescanFacts.
Variable normalizePath : string -> string.
Variable w : World.

Lemma initializeProject_run (p : Project.t) (s : Server) :
  initializeProject normalizePath w p s =
  if watcherStartThrows w (normalizePath (Project.path p))
  then ([WatcherStart (normalizePath (Project.path p))], s,
        Thrown (WatcherStartFailed (normalizePath (Project.path p))))
  else ([WatcherStart (normalizePath (Project.path p))],
        withProjects s
          (mapSet (projects s) (normalizePath (Project.path p))
                  {| project :=
                       Project.withPath p (normalizePath (Project.path p));
                     parser := normalizePath (Project.path p);
                     watcher := normalizePath (Project.path p) |}),
        Done (Project.withPath p (normalizePath (Project.path p)))).
Proof.
  unfold initializeProject, bind. rewrite call_run.
  now destruct (watcherStartThrows w (normalizePath (Project.path p))).
Qed.

(** One turn of the first loop on a path in normal form: the project
    stays as it is, its path is registered afterwards, and the registry
    only grows. *)
Lemma rescanAddOne_done (p p' : Project.t) (s s' : Server)
      (tr : list Effect) :
  normalizePath (Project.path p) = Project.path p ->
  mapWf (projects s) ->
  rescanAddOne normalizePath w p s = (tr, s', Done p') ->
  p' = p
  /\ clients s' = clients s
  /\ mapWf (projects s')
  /\ mapHas (projects s') (Project.path p) = true
  /\ forall k, mapHas (projects s) k = true ->
               mapHas (projects s') k = true.
Proof.
  intros Hcanon Hwf. unfold rescanAddOne. unfold bind at 1. cbn [get].
  destruct (mapHas (projects s) (Project.path p)) eqn:Ehas; cbn [negb].
  - unfold ret. intro H. injection H as <- <- <-. auto.
  - unfold bind at 1. rewrite initializeProject_run, Hcanon, withPath_same.
    destruct (watcherStartThrows w (Project.path p)); [discriminate|].
    unfold bind, get. rewrite broadcast_run. unfold ret.
    intro H. injection H as <- <- <-. cbn [projects clients withProjects].
    repeat split.
    + now apply mapSet_wf.
    + rewrite mapSet_has, String.eqb_refl. apply orb_true_r.
    + intros k Hk. rewrite mapSet_has, Hk. reflexivity.
Qed.

Lemma rescanAdd_done (aps out : list Project.t) (s s' : Server)
      (tr : list Effect) :
  canonicalPaths normalizePath aps ->
  mapWf (projects s) ->
  rescanAdd normalizePath w aps s = (tr, s', Done out) ->
  out = aps
  /\ clients s' = clients s
  /\ mapWf (projects s')
  /\ Forall (fun p => mapHas (projects s') (Project.path p) = true) aps
  /\ forall k, mapHas (projects s) k = true ->
               mapHas (projects s') k = true.
Proof.
  unfold rescanAdd, canonicalPaths.
  revert out s s' tr.
  induction aps as [|p aps IH]; intros out s s' tr Hcanon Hwf; cbn [mapEach].
  - unfold ret. intro H. injection H as <- <- <-. auto.
  - inversion Hcanon as [|? ? Hp Hrest]; subst.
    intro H. apply bind_done_inv in H.
    destruct H as [tr1 [s1 [p' [tr2 [H1 [H2 _]]]]]].
    apply bind_done_inv in H2.
    destruct H2 as [tr3 [s2 [out' [tr4 [H3 [H4 _]]]]]].
    unfold ret in H4. injection H4 as _ <- <-.
    destruct (rescanAddOne_done p p' s s1 tr1 Hp Hwf H1)
      as [-> [Hc1 [Hwf1 [Hhas1 Hgrow1]]]].
    destruct (IH out' s1 s2 tr3 Hrest Hwf1 H3)
      as [-> [Hc2 [Hwf2 [Hhas2 Hgrow2]]]].
    repeat split; auto.
    + congruence.
Qed.

(** With every reported path registered the first loop does nothing. *)
Lemma rescanAdd_idle (aps : list Project.t) (s : Server) :
  Forall (fun p => mapHas (projects s) (Project.path p) = true) aps ->
  rescanAdd normalizePath w aps s = ([], s, Done aps).
Proof.
  unfold rescanAdd. induction 1 as [|p aps Hp _ IH]; cbn [mapEach].
  - reflexivity.
  - assert (H1 : rescanAddOne normalizePath w p s = ([], s, Done p)).
    { unfold rescanAddOne. unfold bind at 1. cbn [get]. now rewrite Hp. }
    rewrite (bind_run _ H1), (bind_run _ IH). reflexivity.
Qed.
End RescanFacts.

Section RemoveFacts.
Variable w : World.
Variable aps : list Project.t.

Lemma rescanRemoveOne_keep (entry : string * ProjectState) (s : Server) :
  stillExists aps entry = true ->
  rescanRemoveOne w aps entry s = ([], s, Done tt).
Proof. unfold rescanRemoveOne. now intros ->. Qed.

Lemma rescanRemoveOne_drop (entry : string * ProjectState) (s s' : Server)
      (tr : list Effect) :
  stillExists aps entry = false ->
  rescanRemoveOne w aps entry s = (tr, s', Done tt) ->
  s' = withProjects s (mapDelete (projects s) (fst entry)).
Proof.
  unfold rescanRemoveOne. intros ->. cbn [negb].
  unfold bind at 1. rewrite call_run.
  destruct (watcherStopThrows w (watcher (snd entry))); [discriminate|].
  unfold bind, get, put. rewrite broadcast_run.
  intro H. now injection H as _ <-.
Qed.

(** With every registered path still reported the second loop does
    nothing. *)
Lemma forEach_remove_idle (entries : Registry) (s : Server) :
  Forall (fun e => stillExists aps e = true) entries ->
  forEach entries (rescanRemoveOne w aps) s = ([], s, Done tt).
Proof.
  induction 1 as [|e entries He _ IH]; cbn [forEach]; [reflexivity|].
  rewrite (bind_run _ (rescanRemoveOne_keep e s He)), IH. reflexivity.
Qed.

(** The second loop leaves exactly the entries discovery still
    reports. *)
Lemma forEach_remove_done (entries : Registry) :
  forall (kept : Registry) (s s' : Server) (tr : list Effect),
    projects s = kept ++ entries ->
    mapWf (kept ++ entries) ->
    forEach entries (rescanRemoveOne w aps) s = (tr, s', Done tt) ->
    projects s' = kept ++ filter (stillExists aps) entries
    /\ clients s' = clients s.
Proof.
  induction entries as [|[k v] rest IH]; intros kept s s' tr Hs Hwf;
    cbn [forEach filter].
  - unfold ret. intro H. injection H as _ <-. auto.
  - intro H. apply bind_done_inv in H.
    destruct H as [tr1 [s1 [[] [tr2 [H1 [H2 _]]]]]].
    destruct (stillExists aps (k, v)) eqn:E.
    + rewrite rescanRemoveOne_keep in H1 by assumption.
      injection H1 as _ <-.
      destruct (IH (kept ++ [(k, v)]) s s' tr2) as [Hp Hc].
      * now rewrite <- app_assoc.
      * now rewrite <- app_assoc.
      * exact H2.
      * split; [|exact Hc]. now rewrite Hp, <- app_assoc.
    + apply rescanRemoveOne_drop in H1; [|assumption].
      cbn [fst] in H1.
      unfold mapWf, mapKeys in Hwf. rewrite map_app in Hwf.
      cbn [map fst] in Hwf.
      assert (Hfresh : ~ In k (mapKeys kept)).
      { intro Hin. apply (NoDup_remove_2 _ _ _ Hwf).
        apply in_or_app. now left. }
      destruct (IH kept s1 s' tr2) as [Hp Hc].
      * rewrite H1. cbn [projects withProjects]. rewrite Hs.
        now apply mapDelete_app.
      * unfold mapWf, mapKeys. rewrite map_app.
        exact (NoDup_remove_1 _ _ _ Hwf).
      * exact H2.
      * split; [exact Hp|]. rewrite Hc, H1. reflexivity.
Qed.

Lemma rescanRemove_done (s s' : Server) (tr : list Effect) :
  mapWf (projects s) ->
  rescanRemove w aps s = (tr, s', Done tt) ->
  projects s' = filter (stillExists aps) (projects s)
  /\ clients s' = clients s.
Proof.
  intros Hwf. unfold rescanRemove, bind. cbn [get].
  destruct (forEach (projects s) (rescanRemoveOne w aps) s)
    as [[tr' s''] [[]|e]] eqn:E; [|discriminate].
  intro H. injection H as _ <-.
  exact (forEach_remove_done (projects s) [] s s'' tr' eq_refl Hwf E).
Qed.

Lemma rescanRemove_idle (s : Server) :
  Forall (fun e => stillExists aps e = true) (projects s) ->
  rescanRemove w aps s = ([], s, Done tt).
Proof.
  intro H. unfold rescanRemove, bind. cbn [get].
  now rewrite forEach_remove_idle.
Qed.
End RemoveFacts.

(* ------------------------------------------------------------------ *)
(** ** Snapshots under an unchanged registry *)

Lemma sessionCompare_blank (localeCompare : string -> string -> Z)
      (a b : Session.t) :
  sessionCompare localeCompare (blankAdHocTime a) (blankAdHocTime b) =
  sessionCompare localeCompare a b.
Proof.
  unfold sessionCompare, blankAdHocTime.
  destruct (isAdHocSession a), (isAdHocSession b), a, b; reflexivity.
Qed.

Section SnapshotStability.
Variables w1 w2 : World.
Hypothesis same_specs : forall root, getAllSpecs w2 root = getAllSpecs w1 root.
Hypothesis same_bugs : forall root, getAllBugs w2 root = getAllBugs w1 root.

Lemma allActiveSessions_blank (registry : Registry) :
  map blankAdHocTime (allActiveSessions w2 registry) =
  map blankAdHocTime (allActiveSessions w1 registry).
Proof.
  induction registry as [|[p st] rest IH]; simpl; [reflexivity|].
  destruct (Project.hasActiveSession (project st)); simpl; [|exact IH].
  rewrite IH, same_specs, same_bugs. f_equal.
  unfold activeSessionOf.
  now destruct (sortedWorkItems _ _).
Qed.

Lemma collectActiveSessions_blank (localeCompare : string -> string -> Z)
      (registry : Registry) :
  map blankAdHocTime (collectActiveSessions localeCompare w2 registry) =
  map blankAdHocTime (collectActiveSessions localeCompare w1 registry).
Proof.
  unfold collectActiveSessions.
  rewrite <- !(jsSort_map _ _ blankAdHocTime
                          (sessionCompare localeCompare)
                          (sessionCompare localeCompare))
    by apply sessionCompare_blank.
  now rewrite allActiveSessions_blank.
Qed.

Lemma collectActiveSessions_same (localeCompare : string -> string -> Z)
      (registry : Registry) :
  now w2 = now w1 ->
  collectActiveSessions localeCompare w2 registry =
  collectActiveSessions localeCompare w1 registry.
Proof.
  intro Hnow. unfold collectActiveSessions. f_equal.
  induction registry as [|[p st] rest IH]; simpl; [reflexivity|].
  now rewrite IH, same_specs, same_bugs, Hnow.
Qed.
End SnapshotStability.

Lemma filter_sends (f : Effect -> bool) (s : Server) (msg : Message) :
  (forall c, f (Send c msg) = false) -> filter f (sends s msg) = [].
Proof.
  intro H. unfold sends.
  induction (openClients s) as [|c l IH]; simpl; [reflexivity|].
  now rewrite H.
Qed.

(** The handlers keep the registry a [Map]: whatever they do, the keys
    stay distinct. *)
Lemma initializeProject_wf (normalizePath : string -> string) (w : World)
      (p : Project.t) (s : Server) :
  mapWf (projects s) ->
  mapWf (projects (serverOf (initializeProject normalizePath w p s))).
Proof.
  intro Hwf. rewrite initializeProject_run.
  destruct (watcherStartThrows w (normalizePath (Project.path p)));
    cbn [serverOf fst snd projects withProjects]; [exact Hwf|].
  now apply mapSet_wf.
Qed.

Lemma rescanRemoveOne_wf (w : World) (aps : list Project.t)
      (entry : string * ProjectState) (s : Server) :
  mapWf (projects s) ->
  mapWf (projects (serverOf (rescanRemoveOne w aps entry s))).
Proof.
  intro Hwf. unfold rescanRemoveOne.
  destruct (stillExists aps entry); cbn [negb]; [exact Hwf|].
  unfold bind at 1. rewrite call_run.
  destruct (watcherStopThrows w (watcher (snd entry))); [exact Hwf|].
  unfold bind, get, put. rewrite broadcast_run.
  cbn [serverOf fst snd projects withProjects].
  now apply mapDelete_wf.
Qed.

(** C4, as the rescan behaves. Let discovery report every path in the
    normal form the registry keys it by, and let a first rescan run to its
    end. A second rescan against the same discovery and parser answers
    then starts and stops no watcher, sends no [new-project] and no
    [remove-project] message, leaves the server as it is, and broadcasts a
    snapshot equal to the first one but for the [lastModified] of ad-hoc
    sessions, which is the clock reading of the pass. *)
Theorem rescan_twice_idempotent
        (localeCompare : string -> string -> Z)
        (normalizePath : string -> string)
        (w1 w2 : World) (s s1 : Server) (tr1 : list Effect)
        (snap1 : list Session.t) :
  mapWf (projects s) ->
  canonicalPaths normalizePath (discoverProjects w1) ->
  discoverProjects w2 = discoverProjects w1 ->
  (forall root, getAllSpecs w2 root = getAllSpecs w1 root) ->
  (forall root, getAllBugs w2 root = getAllBugs w1 root) ->
  rescan localeCompare normalizePath w1 s = (tr1, s1, Done snap1) ->
  exists snap2,
    rescan localeCompare normalizePath w2 s1 =
    (sends s1 (ActiveSessionsUpdate snap2), s1, Done snap2)
    /\ filter isNewProject (sends s1 (ActiveSessionsUpdate snap2)) = []
    /\ filter isRemoveProject (sends s1 (ActiveSessionsUpdate snap2)) = []
    /\ map blankAdHocTime snap2 = map blankAdHocTime snap1
    /\ (now w2 = now w1 -> snap2 = snap1).
Proof.
  intros Hwf Hcanon Hdisc Hspecs Hbugs Hrun.
  unfold rescan in Hrun.
  apply bind_done_inv in Hrun.
  destruct Hrun as [tra [sa [aps [tr' [Hadd [Hrest _]]]]]].
  apply bind_done_inv in Hrest.
  destruct Hrest as [trr [sr [[] [tr'' [Hrem [Hfin _]]]]]].
  unfold bind, get in Hfin. rewrite broadcast_run in Hfin.
  unfold ret in Hfin. injection Hfin as _ <- <-.
  destruct (rescanAdd_done normalizePath w1 _ aps s sa tra Hcanon Hwf Hadd)
    as [-> [_ [Hwfa [Hhas _]]]].
  destruct (rescanRemove_done w1 (discoverProjects w1) sa sr trr Hwfa Hrem)
    as [Hpr _].
  exists (collectActiveSessions localeCompare w2 (projects sr)).
  assert (Hadd2 :
            rescanAdd normalizePath w2 (discoverProjects w2) sr =
            ([], sr, Done (discoverProjects w2))).
  { apply rescanAdd_idle. rewrite Hdisc, Hpr.
    rewrite Forall_forall in *. intros p Hp.
    specialize (Hhas p Hp). apply mapHas_In in Hhas.
    apply in_map_iff in Hhas. destruct Hhas as [[k v] [Hk Hin]].
    cbn [fst] in Hk. subst k.
    apply mapHas_In, in_map_iff. exists (Project.path p, v).
    split; [reflexivity|]. apply filter_In. split; [exact Hin|].
    unfold stillExists. apply existsb_exists. exists p.
    split; [exact Hp|]. apply String.eqb_refl. }
  assert (Hrem2 :
            rescanRemove w2 (discoverProjects w2) sr = ([], sr, Done tt)).
  { apply rescanRemove_idle. rewrite Hdisc, Hpr.
    apply Forall_forall. intros e He. apply filter_In in He. tauto. }
  split; [|split; [|split; [|split]]].
  - unfold rescan. rewrite (bind_run _ Hadd2), (bind_run _ Hrem2).
    unfold bind, get. rewrite broadcast_run.
    unfold ret, traceOf, serverOf, outcomeOf. cbn [fst snd app].
    now rewrite app_nil_r.
  - now apply filter_sends.
  - now apply filter_sends.
  - now apply collectActiveSessions_blank.
  - now apply collectActiveSessions_same.
Qed.

Lemma rescan_twice_idempotent_witness :
  let firstPass := rescan codeUnitCompare trimSlashes sampleWorld freshServer in
  exists snap2,
    rescan codeUnitCompare trimSlashes sampleWorld (serverOf firstPass) =
    (sends (serverOf firstPass) (ActiveSessionsUpdate snap2),
     serverOf firstPass, Done snap2)
    /\ filter isNewProject
         (sends (serverOf firstPass) (ActiveSessionsUpdate snap2)) = []
    /\ filter isRemoveProject
         (sends (serverOf firstPass) (ActiveSessionsUpdate snap2)) = []
    /\ map blankAdHocTime snap2 =
       map blankAdHocTime
           (collectActiveSessions codeUnitCompare sampleWorld
                                  (projects (serverOf firstPass)))
    /\ (now sampleWorld = now sampleWorld ->
        snap2 = collectActiveSessions codeUnitCompare sampleWorld
                                      (projects (serverOf firstPass))).
Proof.
  intro firstPass.
  apply (rescan_twice_idempotent codeUnitCompare trimSlashes
           sampleWorld sampleWorld freshServer (serverOf firstPass)
           (traceOf firstPass)).
  - unfold mapWf. simpl. constructor.
  - unfold canonicalPaths. repeat constructor.
  - reflexivity.
  - reflexivity.
  - reflexivity.
  - vm_compute. reflexivity.
Defined.

(** C4 does not hold as stated. When discovery reports a root with a
    trailing slash, the registry keys it without, the rescan does not find
    the reported path and every pass initialises and announces the project
    again. And with all paths in normal form and nothing changed on disk,
    the ad-hoc session of a project carries the clock reading of each
    pass, so the two snapshots differ in a timestamp. *)
Lemma rescan_second_pass_announces_again :
  let firstPass := rescan codeUnitCompare trimSlashes slashWorld freshServer in
  let secondPass :=
    rescan codeUnitCompare trimSlashes slashWorld (serverOf firstPass) in
  let first := rescan codeUnitCompare trimSlashes sampleWorld sampleServer in
  let second :=
    rescan codeUnitCompare trimSlashes laterWorld (serverOf first) in
  (mapKeys (projects (serverOf firstPass)) = ["/w/a"]
   /\ outcomeOf firstPass =
      Done (collectActiveSessions codeUnitCompare slashWorld
                                  (projects (serverOf firstPass)))
   /\ map isNewProject (traceOf secondPass) = [false; true; false]
   /\ hd_error (traceOf secondPass) = Some (WatcherStart "/w/a"))
  /\ (option_map modifiedTimes
                 (match outcomeOf first with
                  | Done snapshot => Some snapshot
                  | Thrown _ => None
                  end) = Some [500; 1000]
      /\ option_map modifiedTimes
                    (match outcomeOf second with
                     | Done snapshot => Some snapshot
                     | Thrown _ => None
                     end) = Some [500; 11000]).
Proof. vm_compute. repeat split. Qed.

(* ================================================================== *)
(** * Pull-request workflow *)

Lemma includes_In (l : list string) (x : string) :
  includes l x = true <-> In x l.
Proof.
  induction l as [|y l IH]; simpl.
  - split; [discriminate|tauto].
  - rewrite orb_true_iff, IH, String.eqb_eq. tauto.
Qed.

Lemma filter_nonempty_existsb (A : Type) (f : A -> bool) (l : list A) :
  (0 <? List.length (filter f l))%nat = existsb f l.
Proof.
  induction l as [|x l IH]; simpl; [reflexivity|].
  destruct (f x); simpl; [reflexivity|exact IH].
Qed.

Lemma existsb_false_Forall (A : Type) (f : A -> bool) (l : list A) :
  existsb f l = false <-> Forall (fun x => f x = false) l.
Proof.
  induction l as [|x l IH]; simpl.
  - split; [constructor|reflexivity].
  - rewrite orb_false_iff, IH. split.
    + intros [H1 H2]. now constructor.
    + intro H. inversion H. tauto.
Qed.

Lemma assessRiskLevel_split (files : list string) :
  match assessRiskLevel files with
  | Level.high =>
      (5 < List.length files)%nat
      \/ exists f, In f files /\ isCriticalFile f = true
  | Level.medium =>
      (3 <= List.length files <= 5)%nat
      /\ Forall (fun f => isCriticalFile f = false) files
  | Level.low =>
      (List.length files <= 2)%nat
      /\ Forall (fun f => isCriticalFile f = false) files
  end.
Proof.
  unfold assessRiskLevel. rewrite filter_nonempty_existsb.
  destruct (List.length files =? 0)%nat eqn:E0.
  - apply Nat.eqb_eq in E0. destruct files; [|discriminate].
    split; [simpl; lia|constructor].
  - apply Nat.eqb_neq in E0.
    destruct (5 <? List.length files)%nat eqn:E5.
    + apply Nat.ltb_lt in E5. now left.
    + apply Nat.ltb_ge in E5.
      destruct (existsb isCriticalFile files) eqn:Ec.
      * right. apply existsb_exists in Ec. exact Ec.
      * apply existsb_false_Forall in Ec.
        destruct (2 <? List.length files)%nat eqn:E2.
        -- apply Nat.ltb_lt in E2. split; [lia|exact Ec].
        -- apply Nat.ltb_ge in E2. split; [lia|exact Ec].
Qed.

(** The risk of a set of conflicting files is high exactly when there are
    more than five files or one of them is critical, low exactly when
    there are at most two and none is critical, and medium in between. *)
Theorem assessRiskLevel_cases (files : list string) :
  (assessRiskLevel files = Level.high <->
   (5 < List.length files)%nat
   \/ exists f, In f files /\ isCriticalFile f = true)
  /\ (assessRiskLevel files = Level.medium <->
      (3 <= List.length files <= 5)%nat
      /\ Forall (fun f => isCriticalFile f = false) files)
  /\ (assessRiskLevel files = Level.low <->
      (List.length files <= 2)%nat
      /\ Forall (fun f => isCriticalFile f = false) files).
Proof.
  pose proof (assessRiskLevel_split files) as H.
  assert (Hex : forall f, In f files -> isCriticalFile f = true ->
                          Forall (fun f => isCriticalFile f = false) files ->
                          False).
  { intros f Hin Hc Hall. rewrite Forall_forall in Hall.
    rewrite (Hall f Hin) in Hc. discriminate. }
  destruct (assessRiskLevel files); repeat split;
    try discriminate; try tauto; try lia; intro H';
    try (destruct H as [Hlen Hall]);
    try (destruct H' as [Hlen' Hall']);
    try (destruct H as [H|[f [Hin Hc]]]);
    try (destruct H' as [H'|[f [Hin Hc]]]);
    try lia; try (exfalso; eapply Hex; eassumption).
Qed.

Section GitWorkflowFacts.
Variable trim : string -> string.
Variable git : Git.

Lemma detectPotentialConflicts_shape (branch1 branch2 : string) :
  exists files,
    detectPotentialConflicts trim git branch1 branch2 =
    Conflict.mk (0 <? List.length files)%nat files (assessRiskLevel files)
                (generateConflictSuggestions files)
    \/ (files = []
        /\ detectPotentialConflicts trim git branch1 branch2 = conflictsUnknown).
Proof.
  unfold detectPotentialConflicts.
  destruct (gitRaw git _) as [mergeBase|]; [|exists []; now right].
  destruct (gitDiff git _) as [d1|]; [|exists []; now right].
  destruct (gitDiff git _) as [d2|]; [|exists []; now right].
  eexists. left. reflexivity.
Qed.

(** When the three git commands answer, the conflicting files are the
    non-blank lines of the first diff that are also lines of the second,
    and conflicts are reported exactly when the diffs share a line. *)
Theorem detectPotentialConflicts_overlap
        (branch1 branch2 mergeBase diff1 diff2 : string) :
  gitRaw git ["merge-base"; branch1; branch2] = Some mergeBase ->
  gitDiff git [(trim mergeBase ++ "..." ++ branch1)%string; "--name-only"]
  = Some diff1 ->
  gitDiff git [(trim mergeBase ++ "..." ++ branch2)%string; "--name-only"]
  = Some diff2 ->
  let analysis := detectPotentialConflicts trim git branch1 branch2 in
  (forall f, In f (Conflict.conflictingFiles analysis) <->
             In f (fileLines trim diff1) /\ In f (fileLines trim diff2))
  /\ (Conflict.hasConflicts analysis = true <->
      exists f, In f (fileLines trim diff1) /\ In f (fileLines trim diff2))
  /\ Forall (fun f => trim f <> "") (Conflict.conflictingFiles analysis).
Proof.
  intros Hbase H1 H2. unfold detectPotentialConflicts.
  rewrite Hbase, H1, H2.
  cbn [Conflict.conflictingFiles Conflict.hasConflicts].
  assert (Hin : forall f,
             In f (filter (includes (fileLines trim diff2))
                          (fileLines trim diff1)) <->
             In f (fileLines trim diff1) /\ In f (fileLines trim diff2)).
  { intro f. rewrite filter_In, includes_In. tauto. }
  set (cf := filter (includes (fileLines trim diff2))
                    (fileLines trim diff1)) in *.
  split; [exact Hin|]. split.
  - rewrite Nat.ltb_lt. split.
    + intro Hlen.
      destruct cf as [|f l]; [simpl in Hlen; lia|].
      exists f. apply Hin. now left.
    + intros [f Hf]. apply Hin in Hf.
      destruct cf; [destruct Hf|simpl; lia].
  - apply Forall_forall. intros f Hf. apply Hin in Hf.
    destruct Hf as [Hf _]. unfold fileLines in Hf.
    apply filter_In in Hf. destruct Hf as [_ Hf].
    apply negb_true_iff in Hf. now apply String.eqb_neq.
Qed.

(** The strategy suggested for detected conflicts: squash exactly when no
    file conflicts (also when git could not be asked), merge when more
    than five files conflict or one is critical, rebase for one to five
    files none of which is critical. *)
Theorem strategy_of_detected_conflicts (branch1 branch2 : string) :
  let analysis := detectPotentialConflicts trim git branch1 branch2 in
  let files := Conflict.conflictingFiles analysis in
  match Strategy.type (suggestMergeStrategy analysis) with
  | squash => files = [] /\ Conflict.hasConflicts analysis = false
  | merge =>
      (5 < List.length files)%nat
      \/ exists f, In f files /\ isCriticalFile f = true
  | rebase =>
      (1 <= List.length files <= 5)%nat
      /\ Forall (fun f => isCriticalFile f = false) files
  end.
Proof.
  destruct (detectPotentialConflicts_shape branch1 branch2)
    as [files [E|[-> E]]]; cbv zeta; rewrite E; [|now split].
  unfold suggestMergeStrategy.
  cbn [Conflict.hasConflicts Conflict.riskLevel Conflict.conflictingFiles].
  destruct files as [|f files]; [now split|].
  cbn [List.length Nat.ltb Nat.leb negb].
  pose proof (assessRiskLevel_split (f :: files)) as Hrisk.
  destruct (assessRiskLevel (f :: files)); cbn [Strategy.type].
  - destruct Hrisk as [Hlen Hcrit]. split; [simpl in *; lia|exact Hcrit].
  - destruct Hrisk as [Hlen Hcrit]. split; [simpl in *; lia|exact Hcrit].
  - exact Hrisk.
Qed.

(** A pull request is reported ready exactly when no blocker is listed,
    which is when no conflict was detected and the branch is up to date;
    approvals and CI always count as passed, and a failing [git fetch]
    makes the pull request not ready. *)
Theorem checkMergeReadiness_ready_iff_no_blocker (pr : PullRequest.t) :
  let status := checkMergeReadiness trim git pr in
  (MergeStatus.ready status = true <-> MergeStatus.blockers status = [])
  /\ MergeStatus.ready status =
     Checks.noConflicts (MergeStatus.checks status)
     && Checks.branchUpToDate (MergeStatus.checks status)
  /\ Checks.hasApprovals (MergeStatus.checks status) = true
  /\ Checks.ciPassing (MergeStatus.checks status) = true
  /\ (List.length (MergeStatus.blockers status) <= 2)%nat
  /\ (gitFetchThrows git = true -> MergeStatus.ready status = false).
Proof.
  unfold checkMergeReadiness.
  cbn [MergeStatus.ready MergeStatus.blockers MergeStatus.checks
       Checks.noConflicts Checks.branchUpToDate Checks.hasApprovals
       Checks.ciPassing andb].
  set (conflicts := detectPotentialConflicts trim git _ _).
  set (upToDate := isBranchUpToDate trim git _ _).
  assert (Hfetch : gitFetchThrows git = true -> upToDate = false).
  { unfold upToDate, isBranchUpToDate. now intros ->. }
  destruct (Conflict.hasConflicts conflicts), upToDate; cbn;
    repeat split; try discriminate; try lia; auto.
Qed.
End GitWorkflowFacts.

Lemma detectPotentialConflicts_overlap_witness :
  let analysis :=
    detectPotentialConflicts trimAscii sampleGit "feature/login" "main" in
  (forall f, In f (Conflict.conflictingFiles analysis) <->
             In f ["src/auth/login.ts"; "package.json"]
             /\ In f ["package.json"; "README.md"])
  /\ (Conflict.hasConflicts analysis = true <->
      exists f, In f ["src/auth/login.ts"; "package.json"]
                /\ In f ["package.json"; "README.md"])
  /\ Forall (fun f => trimAscii f <> "") (Conflict.conflictingFiles analysis).
Proof.
  apply (detectPotentialConflicts_overlap trimAscii sampleGit
           "feature/login" "main" ("abc123" ++ String "010" "")%string
           ("src/auth/login.ts" ++ String "010" "package.json"
            ++ String "010" "")%string
           ("package.json" ++ String "010" "README.md")%string);
    reflexivity.
Defined.

(* ------------------------------------------------------------------ *)
(** ** Reviewers and review time *)

Lemma setAdd_In (s : list string) (x t : string) :
  In t (setAdd s x) <-> In t s \/ t = x.
Proof.
  unfold setAdd. destruct (includes s x) eqn:E.
  - apply includes_In in E. split; [tauto|].
    intros [H| ->]; assumption.
  - rewrite in_app_iff. simpl. intuition.
Qed.

Lemma setAdd_NoDup (s : list string) (x : string) :
  NoDup s -> NoDup (setAdd s x).
Proof.
  unfold setAdd. intro H. destruct (includes s x) eqn:E; [exact H|].
  apply NoDup_app; [exact H | repeat constructor; simpl; tauto |].
  intros t Ht [<-|[]]. apply includes_In in Ht. congruence.
Qed.

Lemma reviewersForFile_In (reviewers : list string) (file team : string) :
  In team (reviewersForFile reviewers file) <->
  In team reviewers \/ fileWants file team = true.
Proof.
  unfold reviewersForFile, fileWants.
  destruct (strIncludes file "/auth/" || strIncludes file "login"
            || strIncludes file "security");
    destruct (strIncludes file "/api/" || strIncludes file "backend"
              || strIncludes file "server");
    destruct (strIncludes file "/ui/" || strIncludes file "component"
              || strIncludes file "frontend");
    destruct (strIncludes file "test" || strIncludes file "spec");
    rewrite ?setAdd_In, ?andb_true_r, ?andb_false_r, ?orb_false_r,
      ?orb_true_iff, ?String.eqb_eq; cbn [orb];
    rewrite ?orb_true_iff, ?String.eqb_eq;
    intuition congruence.
Qed.

Lemma reviewersForFile_NoDup (reviewers : list string) (file : string) :
  NoDup reviewers -> NoDup (reviewersForFile reviewers file).
Proof.
  intro H. unfold reviewersForFile.
  repeat match goal with
         | |- context [if ?b then _ else _] => destruct b
         end; repeat apply setAdd_NoDup; exact H.
Qed.

(** The suggested reviewers hold a team exactly when some file calls for
    it, and never hold a team twice, so there are at most four. *)
Theorem suggestReviewersForFiles_teams (files : list string) :
  (forall team,
      In team (suggestReviewersForFiles files) <->
      exists file, In file files /\ fileWants file team = true)
  /\ NoDup (suggestReviewersForFiles files)
  /\ (List.length (suggestReviewersForFiles files) <= 4)%nat.
Proof.
  unfold suggestReviewersForFiles.
  assert (Hgen : forall acc,
             NoDup acc ->
             (forall team,
                 In team (fold_left reviewersForFile files acc) <->
                 In team acc
                 \/ exists file, In file files /\ fileWants file team = true)
             /\ NoDup (fold_left reviewersForFile files acc)).
  { induction files as [|f files IH]; intros acc Hnd; simpl.
    - split; [|exact Hnd]. intro team. split; [tauto|].
      intros [H|[file [[] _]]]. exact H.
    - destruct (IH (reviewersForFile acc f) (reviewersForFile_NoDup acc f Hnd))
        as [Hin Hnd'].
      split; [|exact Hnd']. intro team.
      rewrite Hin, reviewersForFile_In. split.
      + intros [[H|H]|[file [H1 H2]]]; [now left| |].
        * right. exists f. auto.
        * right. exists file. auto.
      + intros [H|[file [[<-|H1] H2]]]; [tauto|tauto|].
        right. exists file. auto. }
  destruct (Hgen [] (NoDup_nil _)) as [Hin Hnd].
  split; [|split; [exact Hnd|]].
  - intro team. rewrite Hin. simpl. tauto.
  - apply (NoDup_incl_length Hnd
             (l' := ["security-team"; "backend-team"; "frontend-team";
                     "qa-team"])).
    intros team Ht. apply Hin in Ht. destruct Ht as [[]|[file [_ Hw]]].
    unfold fileWants in Hw.
    rewrite !orb_true_iff, !andb_true_iff, !String.eqb_eq in Hw.
    simpl. intuition.
Qed.

(** The estimated review time is never below 15 nor above 120 minutes. *)
Theorem estimateReviewTime_bounds (files : list string)
        (complexity : Level.t) :
  (15 <= estimateReviewTime files complexity
   /\ estimateReviewTime files complexity <= 120)%Q.
Proof.
  unfold estimateReviewTime. split.
  - apply Q.min_glb; [apply Q.le_max_r | discriminate].
  - apply Q.le_min_r.
Qed.

Lemma clamp_monotone (a b : Q) :
  (a <= b)%Q -> (Qmin (Qmax a 15) 120 <= Qmin (Qmax b 15) 120)%Q.
Proof.
  intro H. apply Q.min_le_compat_r. now apply Q.max_le_compat_r.
Qed.

(** More modified files never shorten the review time [analyzeCode]
    estimates, the jumps in complexity at six and eleven files
    included. *)
Theorem analyzeCode_estimate_monotone
        (trim : string -> string) (git git' : Git)
        (branchName branchName' diffOutput diffOutput' : string) :
  gitDiff git ["origin/main...HEAD"; "--name-only"] = Some diffOutput ->
  gitDiff git' ["origin/main...HEAD"; "--name-only"] = Some diffOutput' ->
  (List.length (fileLines trim diffOutput)
   <= List.length (fileLines trim diffOutput'))%nat ->
  (CodeAnalysis.estimatedReviewTime (analyzeCode trim git branchName)
   <= CodeAnalysis.estimatedReviewTime (analyzeCode trim git' branchName'))%Q.
Proof.
  intros H H' Hle. unfold analyzeCode. rewrite H, H'.
  cbn [CodeAnalysis.estimatedReviewTime]. unfold estimateReviewTime.
  set (n := List.length (fileLines trim diffOutput)) in *.
  set (m := List.length (fileLines trim diffOutput')) in *.
  apply clamp_monotone.
  rewrite !inject_Z_mult.
  assert (Hq : (inject_Z (Z.of_nat n) <= inject_Z (Z.of_nat m))%Q)
    by (rewrite <- Zle_Qle; lia).
  assert (H0 : (0 <= inject_Z (Z.of_nat n))%Q)
    by (change 0%Q with (inject_Z 0); rewrite <- Zle_Qle; lia).
  change (inject_Z 5) with 5%Q.
  destruct (10 <? n)%nat eqn:E10; destruct (10 <? m)%nat eqn:F10;
    destruct (5 <? n)%nat eqn:E5; destruct (5 <? m)%nat eqn:F5;
    rewrite ?Nat.ltb_lt, ?Nat.ltb_ge in *; try lia; lra.
Qed.

Lemma analyzeCode_estimate_monotone_witness :
  (CodeAnalysis.estimatedReviewTime (analyzeCode trimAscii sampleGit "a")
   <= CodeAnalysis.estimatedReviewTime (analyzeCode trimAscii busyGit "b"))%Q.
Proof.
  apply (analyzeCode_estimate_monotone trimAscii sampleGit busyGit "a" "b"
           ("src/auth/login.ts" ++ String "010" "src/ui/form.test.ts")%string
           ("a.ts" ++ String "010" "b.ts" ++ String "010" "c.ts"
            ++ String "010" "d.ts" ++ String "010" "e.ts"
            ++ String "010" "f.ts")%string).
  - reflexivity.
  - reflexivity.
  - vm_compute. lia.
Defined.

(* ================================================================== *)
(** * Stable selection *)

(** The stable sort puts first the earliest element that nothing beats:
    everything before it compares after it, nothing behind it compares
    before it. *)
Lemma jsSort_head_first (A : Type) (cmp : A -> A -> Z)
      (pre post : list A) (m : A) :
  (forall x, In x pre -> 0 < cmp x m) ->
  (forall x, In x post -> cmp m x <= 0) ->
  exists rest, jsSort cmp (pre ++ m :: post) = m :: rest.
Proof.
  intros Hpre Hpost. induction pre as [|x pre IH]; simpl.
  - destruct (jsSort cmp post) as [|y l] eqn:E; simpl; [now exists []|].
    assert (Hy : In y post)
      by (apply (jsSort_In _ cmp); rewrite E; now left).
    apply Hpost, Z.leb_le in Hy. rewrite Hy. now exists (y :: l).
  - destruct IH as [rest ->]; [intros y Hy; apply Hpre; now right|].
    simpl. assert (Hx : 0 < cmp x m) by (apply Hpre; now left).
    apply Z.leb_gt in Hx. rewrite Hx. now exists (sortInsert cmp x rest).
Qed.

(** Among the candidates of a project the session is rendered from the
    first one, in collection order (specs before bugs), that has the
    greatest priority and, among those, the latest [lastModified]. *)
Theorem first_best_candidate_is_selected
        (path : string) (state : ProjectState) (specs : list Spec.t)
        (bugs : list Bug.t) (now : Z) (pre post : list WorkItem)
        (m : WorkItem) :
  activeWorkItems specs bugs = pre ++ m :: post ->
  Forall (fun x => priority x < priority m
                   \/ (priority x = priority m
                       /\ lastModified x < lastModified m)) pre ->
  Forall (fun x => priority x < priority m
                   \/ (priority x = priority m
                       /\ lastModified x <= lastModified m)) post ->
  activeSessionOf path state specs bugs now = renderWorkItem path state m.
Proof.
  intros Hsplit Hpre Hpost. rewrite Forall_forall in Hpre, Hpost.
  unfold activeSessionOf, sortedWorkItems. rewrite Hsplit.
  destruct (jsSort_head_first _ workItemCompare pre post m) as [rest ->];
    [| |reflexivity].
  - intros x Hx. specialize (Hpre x Hx). unfold workItemCompare.
    destruct (priority x =? priority m) eqn:E; simpl;
      rewrite ?Z.eqb_eq, ?Z.eqb_neq in E; lia.
  - intros x Hx. specialize (Hpost x Hx). unfold workItemCompare.
    destruct (priority m =? priority x) eqn:E; simpl;
      rewrite ?Z.eqb_eq, ?Z.eqb_neq in E; lia.
Qed.

Lemma first_best_candidate_is_selected_witness :
  activeSessionOf "/w/a" (stateOf projectA) [specDone; specInFlight]
                  [bugFixing] 1000 =
  renderWorkItem "/w/a" (stateOf projectA) (specWorkItem 100 specInFlight).
Proof.
  apply (first_best_candidate_is_selected "/w/a" (stateOf projectA)
           [specDone; specInFlight] [bugFixing] 1000 []
           [bugWorkItem 90 bugFixing] (specWorkItem 100 specInFlight)).
  - reflexivity.
  - constructor.
  - repeat constructor.
Defined.

(* ================================================================== *)
(** * GitHub integration *)

Lemma first_minimum (l : list TeamMember.t) :
  l <> [] ->
  exists pre m post,
    l = pre ++ m :: post
    /\ Forall (fun x => TeamMember.workload m < TeamMember.workload x) pre
    /\ Forall (fun x => TeamMember.workload m <= TeamMember.workload x) post.
Proof.
  induction l as [|x l IH]; [congruence|]. intros _.
  destruct l as [|y l'].
  - exists [], x, []. repeat split; constructor.
  - destruct IH as [pre [m [post [E [Hpre Hpost]]]]]; [discriminate|].
    destruct (Z_le_gt_dec (TeamMember.workload x) (TeamMember.workload m))
      as [Hle|Hgt].
    + exists [], x, (y :: l'). split; [reflexivity|]. split; [constructor|].
      rewrite E. apply Forall_app. split.
      * eapply Forall_impl; [|exact Hpre]. simpl. intros. lia.
      * constructor; [exact Hle|].
        eapply Forall_impl; [|exact Hpost]. simpl. intros. lia.
    + exists (x :: pre), m, post. split; [now rewrite E|].
      split; [|exact Hpost]. constructor; [lia|exact Hpre].
Qed.

(** [autoAssignIssue] sends nothing for an empty team; otherwise it
    assigns the issue to exactly one member, the first in the given order
    whose workload no other member undercuts. The caller's array is left
    sorted by workload. *)
Theorem autoAssignIssue_least_loaded
        (issue : Issue.t) (teamMembers : list TeamMember.t) :
  match fst (autoAssignIssue issue teamMembers) with
  | None => teamMembers = []
  | Some (n, assignees) =>
      n = Issue.number issue
      /\ exists pre m post,
           teamMembers = pre ++ m :: post
           /\ assignees = [TeamMember.username m]
           /\ Forall (fun x => TeamMember.workload m < TeamMember.workload x)
                     pre
           /\ Forall (fun x => TeamMember.workload m <= TeamMember.workload x)
                     post
  end
  /\ Permutation (snd (autoAssignIssue issue teamMembers)) teamMembers
  /\ StronglySorted
       (fun a b => TeamMember.workload a <= TeamMember.workload b)
       (snd (autoAssignIssue issue teamMembers)).
Proof.
  unfold autoAssignIssue.
  destruct teamMembers as [|x l]; [simpl; repeat split; constructor|].
  cbn [List.length Nat.eqb].
  destruct (first_minimum (x :: l)) as [pre [m [post [E [Hpre Hpost]]]]];
    [discriminate|].
  assert (Hsorted :
            StronglySorted
              (fun a b => TeamMember.workload a <= TeamMember.workload b)
              (jsSort workloadCompare (x :: l))).
  { apply StronglySorted_impl
      with (R := fun a b => workloadCompare a b <= 0).
    - unfold workloadCompare. intros. lia.
    - apply jsSort_sorted; unfold workloadCompare; intros; lia. }
  destruct (jsSort_head_first _ workloadCompare pre post m) as [rest Hrest].
  - rewrite Forall_forall in Hpre. intros y Hy. specialize (Hpre y Hy).
    unfold workloadCompare. lia.
  - rewrite Forall_forall in Hpost. intros y Hy. specialize (Hpost y Hy).
    unfold workloadCompare. lia.
  - pose proof (jsSort_perm _ workloadCompare (x :: l)) as Hperm.
    rewrite E in *. rewrite Hrest in *. cbn [fst snd].
    split; [|split; assumption].
    split; [reflexivity|]. now exists pre, m, post.
Qed.

(* ------------------------------------------------------------------ *)
(** ** Pull-request titles *)

Lemma splitOn_nonempty (sep : ascii) (s : string) : splitOn sep s <> [].
Proof.
  destruct s as [|c s]; simpl; [discriminate|].
  destruct (Ascii.eqb c sep); [discriminate|].
  destruct (splitOn sep s); discriminate.
Qed.

Lemma splitOn_parts (sep : ascii) (s part : string) :
  In part (splitOn sep s) ->
  ~ In sep (list_ascii_of_string part)
  /\ (String.length part <= String.length s)%nat.
Proof.
  revert part. induction s as [|c s IH]; intros part; simpl.
  - intros [<-|[]]. simpl. split; [tauto|lia].
  - destruct (Ascii.eqb_spec c sep) as [->|Hne].
    + intros [<-|Hin]; [simpl; split; [tauto|lia]|].
      destruct (IH part Hin). split; [assumption|lia].
    + pose proof (splitOn_nonempty sep s) as Hnil.
      destruct (splitOn sep s) as [|h t]; [congruence|].
      intros [<-|Hin].
      * destruct (IH h (or_introl eq_refl)) as [H1 H2].
        simpl. split; [|lia]. intros [H|H]; [congruence|tauto].
      * destruct (IH part (or_intror Hin)). split; [assumption|lia].
Qed.

Lemma last_In (A : Type) (l : list A) (d : A) : l <> [] -> In (last l d) l.
Proof.
  induction l as [|x l IH]; [congruence|]. intros _.
  destruct l as [|y l']; [now left|].
  right. apply IH. discriminate.
Qed.

Lemma skipDigits_suffix (s : string) :
  incl (list_ascii_of_string (skipDigits s)) (list_ascii_of_string s)
  /\ (String.length (skipDigits s) <= String.length s)%nat.
Proof.
  induction s as [|c s [IH1 IH2]]; simpl; [split; [apply incl_refl|lia]|].
  destruct (isDigit c); simpl.
  - split; [now apply incl_tl|lia].
  - split; [apply incl_refl|lia].
Qed.

Lemma dropLeadingNumber_suffix (s : string) :
  incl (list_ascii_of_string (dropLeadingNumber s)) (list_ascii_of_string s)
  /\ (String.length (dropLeadingNumber s) <= String.length s)%nat.
Proof.
  unfold dropLeadingNumber.
  destruct s as [|c s]; [split; [apply incl_refl|lia]|].
  destruct (isDigit c); [|split; [apply incl_refl|lia]].
  destruct (skipDigits_suffix (String c s)) as [H1 H2].
  destruct (skipDigits (String c s)) as [|d rest];
    [split; [apply incl_refl|lia]|].
  destruct (Ascii.eqb d "-"); [|split; [apply incl_refl|lia]].
  simpl in *. split; [|lia].
  intros a Ha. apply H1. now right.
Qed.

Lemma hyphensToSpaces_chars (s : string) (c : ascii) :
  In c (list_ascii_of_string (hyphensToSpaces s)) ->
  c <> "-"%char /\ (c = " "%char \/ In c (list_ascii_of_string s)).
Proof.
  induction s as [|a s IH]; simpl; [intros []|].
  intros [<-|Hin].
  - destruct (Ascii.eqb_spec a "-") as [->|Hne].
    + split; [discriminate|now left].
    + split; [exact Hne|]. right. now left.
  - destruct (IH Hin) as [H1 H2]. split; [exact H1|]. tauto.
Qed.

Lemma hyphensToSpaces_length (s : string) :
  String.length (hyphensToSpaces s) = String.length s.
Proof. induction s as [|a s IH]; simpl; congruence. Qed.

Lemma upperWordChar_facts (c : ascii) :
  isLower (upperWordChar c) = false
  /\ isWordChar (upperWordChar c) = isWordChar c
  /\ (upperWordChar c = "/"%char -> c = "/"%char)
  /\ (upperWordChar c = "-"%char -> c = "-"%char)
  /\ (isLower c = true -> isWordChar c = true).
Proof.
  destruct c as [[] [] [] [] [] [] [] []]; vm_compute;
    repeat split; congruence.
Qed.

Lemma capitalizeFrom_chars (afterWord : bool) (s : string) (c : ascii) :
  In c (list_ascii_of_string (capitalizeFrom afterWord s)) ->
  exists c0, In c0 (list_ascii_of_string s)
             /\ (c = c0 \/ c = upperWordChar c0).
Proof.
  revert afterWord. induction s as [|a s IH]; intro afterWord; simpl;
    [intros []|].
  intros [<-|Hin].
  - exists a. split; [now left|].
    destruct (negb afterWord && isWordChar a); auto.
  - destruct (IH _ Hin) as [c0 [H1 H2]]. exists c0. auto.
Qed.

Lemma capitalizeFrom_length (afterWord : bool) (s : string) :
  String.length (capitalizeFrom afterWord s) = String.length s.
Proof.
  revert afterWord. induction s as [|a s IH]; intro; simpl; congruence.
Qed.

Lemma capitalizeFrom_lower (s : string) :
  forall (afterWord : bool) (pre post : string) (c : ascii),
    capitalizeFrom afterWord s = (pre ++ String c post)%string ->
    isLower c = true ->
    (pre = EmptyString /\ afterWord = true)
    \/ exists pre' p,
         pre = (pre' ++ String p EmptyString)%string
         /\ isWordChar p = true.
Proof.
  induction s as [|a s IH]; intros afterWord pre post c; simpl.
  - destruct pre; discriminate.
  - destruct (upperWordChar_facts a) as [Hup [Hword [_ [_ Hlw]]]].
    destruct pre as [|a' pre]; simpl; intros E Hc; injection E as Ea Es.
    + left. split; [reflexivity|].
      destruct afterWord; [reflexivity|]. simpl in Ea.
      destruct (isWordChar a) eqn:Ew; subst c; [congruence|].
      apply Hlw in Hc. congruence.
    + right. destruct (IH _ _ _ _ Es Hc) as [[-> Hw]|[pre' [p [-> Hp]]]].
      * exists EmptyString, a'. split; [reflexivity|].
        subst a'. destruct (negb afterWord && isWordChar a); congruence.
      * exists (String a' pre'), p. split; [reflexivity|exact Hp].
Qed.

(** The title is [feat: ] followed by the cleaned last segment of the
    branch name: no longer than the branch name, free of slashes and
    hyphens, and with no lower-case letter at the start of a word. *)
Theorem generatePRTitle_shape (branchName : string) :
  exists cleaned,
    generatePRTitle branchName = ("feat: " ++ cleaned)%string
    /\ (String.length cleaned <= String.length branchName)%nat
    /\ (forall c, In c (list_ascii_of_string cleaned) ->
                  c <> "/"%char /\ c <> "-"%char)
    /\ (forall pre c post,
           cleaned = (pre ++ String c post)%string ->
           isLower c = true ->
           exists pre' p,
             pre = (pre' ++ String p EmptyString)%string
             /\ isWordChar p = true).
Proof.
  unfold generatePRTitle. eexists. split; [reflexivity|].
  set (featurePart := last (splitOn "/" branchName) EmptyString).
  destruct (splitOn_parts "/" branchName featurePart
              (last_In _ _ _ (splitOn_nonempty "/" branchName)))
    as [Hsep Hlen].
  destruct (dropLeadingNumber_suffix featurePart) as [Hincl Hlen'].
  unfold cleanFeaturePart, capitalizeWords. split; [|split].
  - rewrite capitalizeFrom_length, hyphensToSpaces_length. lia.
  - intros c Hc. apply capitalizeFrom_chars in Hc.
    destruct Hc as [c0 [Hc0 Hc]].
    apply hyphensToSpaces_chars in Hc0. destruct Hc0 as [Hhy Hsrc].
    assert (Hslash : c0 <> "/"%char).
    { destruct Hsrc as [->|Hsrc]; [discriminate|].
      intros ->. apply Hsep, Hincl, Hsrc. }
    destruct (upperWordChar_facts c0) as [_ [_ [H1 [H2 _]]]].
    destruct Hc as [->| ->]; split; auto.
  - intros pre c post E Hc.
    destruct (capitalizeFrom_lower _ _ _ _ _ E Hc) as [[_ H]|H];
      [discriminate|exact H].
Qed.

(* ================================================================== *)
(** * GitHub dashboard *)

Lemma filter_map_comm (A B : Type) (f : A -> B) (p : B -> bool)
      (l : list A) :
  filter p (map f l) = map f (filter (fun x => p (f x)) l).
Proof.
  induction l as [|x l IH]; simpl; [reflexivity|].
  destruct (p (f x)); simpl; now rewrite IH.
Qed.

Lemma filter_none (A : Type) (p : A -> bool) (l : list A) :
  (forall x, In x l -> p x = false) -> filter p l = [].
Proof.
  induction l as [|x l IH]; simpl; intro H; [reflexivity|].
  rewrite (H x (or_introl eq_refl)). apply IH. intros. apply H. now right.
Qed.

Lemma filter_all (A : Type) (p : A -> bool) (l : list A) :
  (forall x, In x l -> p x = true) -> filter p l = l.
Proof.
  induction l as [|x l IH]; simpl; intro H; [reflexivity|].
  rewrite (H x (or_introl eq_refl)). f_equal. apply IH.
  intros. apply H. now right.
Qed.

(** The board sorts every open issue into exactly one of backlog (no
    assignee, or an empty one) and in-progress (an assignee), keeps their
    order, puts every pull request and nothing else under review, and
    leaves the done column empty. *)
Theorem renderPRKanban_columns (now : Z) (issues : list Issue.t)
        (prs : list PullRequest.t) :
  let board := renderPRKanban now issues prs in
  Kanban.backlog board =
  map (issueKanbanItem now)
      (filter (fun i => negb (truthy (Issue.assignee i))) issues)
  /\ Kanban.inProgress board =
     map (issueKanbanItem now)
         (filter (fun i => truthy (Issue.assignee i)) issues)
  /\ Kanban.inReview board = map (prKanbanItem now) prs
  /\ Kanban.done board = []
  /\ (List.length (Kanban.backlog board)
      + List.length (Kanban.inProgress board)
      + List.length (Kanban.inReview board)
      = List.length issues + List.length prs)%nat.
Proof.
  cbv zeta. unfold renderPRKanban.
  cbn [Kanban.backlog Kanban.inProgress Kanban.inReview Kanban.done].
  rewrite !filter_app, !filter_map_comm. cbn [isIssueItem issueKanbanItem
    prKanbanItem KanbanItem.type KanbanItem.assignee truthy andb negb].
  rewrite (filter_none _ (fun _ : PullRequest.t => false) prs)
    by reflexivity.
  rewrite (filter_none _ (fun _ : Issue.t => false) issues) by reflexivity.
  rewrite (filter_all _ (fun _ : PullRequest.t => true) prs) by reflexivity.
  cbn [map app]. rewrite !app_nil_r.
  repeat split.
  rewrite !length_map.
  assert (Hpart : forall l : list Issue.t,
             (List.length
                (filter (fun i => negb (truthy (Issue.assignee i))) l)
              + List.length (filter (fun i => truthy (Issue.assignee i)) l)
              = List.length l)%nat).
  { induction l as [|i l IH]; simpl; [reflexivity|].
    destruct (truthy (Issue.assignee i)); simpl; lia. }
  rewrite Hpart. reflexivity.
Qed.

(* ================================================================== *)
(** * More of the server *)

Section Preservation.
Variable I : Server -> Prop.

Lemma preserves_ret (A : Type) (a : A) : preserves I (ret a).
Proof. intros s H. exact H. Qed.

Lemma preserves_emit (e : Effect) : preserves I (emit e).
Proof. intros s H. exact H. Qed.

Lemma preserves_call (e : Effect) (throws : bool) (f : Failure) :
  preserves I (call e throws f).
Proof. intros s H. rewrite call_run. exact H. Qed.

Lemma preserves_broadcast (msg : Message) : preserves I (broadcast msg).
Proof. intros s H. rewrite broadcast_run. exact H. Qed.

Lemma preserves_bind (A B : Type) (m : M A) (k : A -> M B) :
  preserves I m -> (forall a, preserves I (k a)) -> preserves I (bind m k).
Proof.
  intros Hm Hk s H. specialize (Hm s H). unfold bind, serverOf in *.
  destruct (m s) as [[tr s'] [a|e]]; cbn [fst snd] in *; [|exact Hm].
  specialize (Hk a s' Hm). unfold serverOf in Hk.
  now destruct (k a s') as [[tr' s''] r].
Qed.

(** After [get] the continuation runs on the state it was handed. *)
Lemma preserves_bind_get (B : Type) (k : Server -> M B) :
  (forall s, I s -> I (serverOf (k s s))) -> preserves I (bind get k).
Proof.
  intros Hk s H. specialize (Hk s H). unfold bind, get, serverOf in *.
  now destruct (k s s) as [[tr' s''] r].
Qed.

Lemma preserves_forEach (A : Type) (l : list A) (body : A -> M unit) :
  (forall x, preserves I (body x)) -> preserves I (forEach l body).
Proof.
  intro Hbody. induction l as [|x l IH]; cbn [forEach].
  - apply preserves_ret.
  - apply preserves_bind; [apply Hbody|intros _; exact IH].
Qed.

Lemma preserves_mapEach (A B : Type) (l : list A) (body : A -> M B) :
  (forall x, preserves I (body x)) -> preserves I (mapEach l body).
Proof.
  intro Hbody. induction l as [|x l IH]; cbn [mapEach].
  - apply preserves_ret.
  - apply preserves_bind; [apply Hbody|]. intro y.
    apply preserves_bind; [exact IH|]. intro ys. apply preserves_ret.
Qed.

Lemma preserves_tryCatch (A : Type) (m : M A) (h : Failure -> M A) :
  preserves I m -> (forall e, preserves I (h e)) ->
  preserves I (tryCatch m h).
Proof.
  intros Hm Hh s H. specialize (Hm s H). unfold tryCatch, serverOf in *.
  destruct (m s) as [[tr s'] [a|e]]; cbn [fst snd] in *; [exact Hm|].
  specialize (Hh e s' Hm). unfold serverOf in Hh.
  now destruct (h e s') as [[tr' s''] r].
Qed.
End Preservation.

Lemma mapSet_Forall (V : Type) (P : string * V -> Prop) (m : JsMap V)
      (k : string) (v : V) :
  Forall P m -> P (k, v) -> Forall P (mapSet m k v).
Proof.
  intros Hm Hk. induction m as [|[k' v'] m IH]; simpl.
  - now constructor.
  - inversion Hm; subst. destruct (k' =? k)%string; constructor; auto.
Qed.

Lemma mapDelete_Forall (V : Type) (P : string * V -> Prop) (m : JsMap V)
      (k : string) :
  Forall P m -> Forall P (mapDelete m k).
Proof.
  intros Hm. induction m as [|[k' v'] m IH]; simpl; [constructor|].
  inversion Hm; subst. destruct (k' =? k)%string; [assumption|].
  constructor; auto.
Qed.

Section RegistryInvariant.
Variable localeCompare : string -> string -> Z.
Variable normalizePath : string -> string.
Variable w : World.

Lemma initializeProject_ok (p : Project.t) :
  preserves (fun s => registryOk (projects s))
            (initializeProject normalizePath w p).
Proof.
  intros s [Hwf Hall]. rewrite initializeProject_run.
  destruct (watcherStartThrows w (normalizePath (Project.path p)));
    cbn [serverOf fst snd projects withProjects]; [now split|].
  split; [now apply mapSet_wf|].
  apply mapSet_Forall; [exact Hall|].
  unfold entryOk. destruct p. cbn. auto.
Qed.

Lemma rescanAddOne_ok (p : Project.t) :
  preserves (fun s => registryOk (projects s))
            (rescanAddOne normalizePath w p).
Proof.
  unfold rescanAddOne. apply preserves_bind_get. intros s Hs.
  destruct (negb (mapHas (projects s) (Project.path p))); [|exact Hs].
  refine (preserves_bind (fun s => registryOk (projects s)) _ _ _ _ _ _ s Hs);
    [apply initializeProject_ok|].
  intro p'. apply preserves_bind_get. intros s0 Hs0.
  refine (preserves_bind (fun s => registryOk (projects s)) _ _ _ _ _ _ s0 Hs0);
    [apply preserves_broadcast|].
  intros _. apply preserves_ret.
Qed.

Lemma rescanRemoveOne_ok (aps : list Project.t)
      (entry : string * ProjectState) :
  preserves (fun s => registryOk (projects s)) (rescanRemoveOne w aps entry).
Proof.
  unfold rescanRemoveOne.
  destruct (negb (stillExists aps entry)); [|apply preserves_ret].
  apply preserves_bind; [apply preserves_call|]. intros _.
  apply preserves_bind_get. intros s [Hwf Hall].
  unfold bind, put. rewrite broadcast_run.
  cbn [serverOf fst snd projects withProjects].
  split; [now apply mapDelete_wf|now apply mapDelete_Forall].
Qed.

(** However a rescan ends, by finishing or by a failing watcher, the
    registry is still a map with distinct keys in which every entry is
    keyed by the path of its project and has its parser and watcher
    rooted there. *)
Theorem rescan_keeps_registry_ok (s : Server) :
  registryOk (projects s) ->
  registryOk (projects (serverOf (rescan localeCompare normalizePath w s))).
Proof.
  revert s.
  change (preserves (fun s => registryOk (projects s))
                    (rescan localeCompare normalizePath w)).
  unfold rescan. apply preserves_bind.
  - unfold rescanAdd. apply preserves_mapEach. apply rescanAddOne_ok.
  - intro aps. apply preserves_bind.
    + unfold rescanRemove. apply preserves_bind_get. intros s Hs.
      exact (preserves_forEach (fun s => registryOk (projects s)) _ _ _
                               (rescanRemoveOne_ok aps) s Hs).
    + intros _. apply preserves_bind_get. intros s Hs.
      refine (preserves_bind (fun s => registryOk (projects s))
                             _ _ _ _ _ _ s Hs);
        [apply preserves_broadcast|].
      intros _. apply preserves_ret.
Qed.

Lemma rescanAddOne_any (p p' : Project.t) (s s' : Server)
      (tr : list Effect) :
  mapWf (projects s) ->
  rescanAddOne normalizePath w p s = (tr, s', Done p') ->
  (Project.path p' = Project.path p
   \/ Project.path p' = normalizePath (Project.path p))
  /\ clients s' = clients s
  /\ mapWf (projects s')
  /\ mapHas (projects s') (Project.path p') = true
  /\ forall k, mapHas (projects s) k = true ->
               mapHas (projects s') k = true.
Proof.
  intros Hwf. unfold rescanAddOne. unfold bind at 1. cbn [get].
  destruct (mapHas (projects s) (Project.path p)) eqn:Ehas; cbn [negb].
  - unfold ret. intro H. injection H as <- <- <-. auto.
  - unfold bind at 1. rewrite initializeProject_run.
    destruct (watcherStartThrows w (normalizePath (Project.path p)));
      [discriminate|].
    unfold bind, get. rewrite broadcast_run. unfold ret.
    intro H. injection H as <- <- <-. cbn [projects clients withProjects].
    assert (Hpath : Project.path
                      (Project.withPath p (normalizePath (Project.path p)))
                    = normalizePath (Project.path p)) by now destruct p.
    rewrite Hpath. repeat split.
    + now right.
    + now apply mapSet_wf.
    + rewrite mapSet_has, String.eqb_refl. apply orb_true_r.
    + intros k Hk. rewrite mapSet_has, Hk. reflexivity.
Qed.

Lemma rescanAdd_any (aps out : list Project.t) (s s' : Server)
      (tr : list Effect) :
  mapWf (projects s) ->
  rescanAdd normalizePath w aps s = (tr, s', Done out) ->
  clients s' = clients s
  /\ mapWf (projects s')
  /\ Forall2 (fun p p' =>
                (Project.path p' = Project.path p
                 \/ Project.path p' = normalizePath (Project.path p))
                /\ mapHas (projects s') (Project.path p') = true)
             aps out.
Proof.
  unfold rescanAdd. revert out s s' tr.
  induction aps as [|p aps IH]; intros out s s' tr Hwf; cbn [mapEach].
  - unfold ret. intro H. injection H as <- <- <-. auto.
  - intro H. apply bind_done_inv in H.
    destruct H as [tr1 [s1 [p' [tr2 [H1 [H2 _]]]]]].
    apply bind_done_inv in H2.
    destruct H2 as [tr3 [s2 [out' [tr4 [H3 [H4 _]]]]]].
    unfold ret in H4. injection H4 as _ <- <-.
    destruct (rescanAddOne_any p p' s s1 tr1 Hwf H1)
      as [Hp [Hc1 [Hwf1 [Hhas1 Hgrow1]]]].
    assert (Hgrow : forall k, mapHas (projects s1) k = true ->
                              mapHas (projects s2) k = true).
    { clear - H3 Hwf1. revert s1 s2 out' tr3 H3 Hwf1.
      induction aps as [|q aps IHa]; intros s1 s2 out' tr3 H3 Hwf1 k Hk;
        cbn [mapEach] in H3.
      - unfold ret in H3. now injection H3 as _ <- _.
      - apply bind_done_inv in H3.
        destruct H3 as [ta [sa [q' [tb [Ha [Hb _]]]]]].
        apply bind_done_inv in Hb.
        destruct Hb as [tc [sb [o [td [Hc [Hd _]]]]]].
        unfold ret in Hd. injection Hd as _ <- _.
        destruct (rescanAddOne_any q q' s1 sa ta Hwf1 Ha)
          as [_ [_ [Hwfa [_ Hg]]]].
        exact (IHa sa sb o tc Hc Hwfa k (Hg k Hk)). }
    destruct (IH out' s1 s2 tr3 Hwf1 H3) as [Hc2 [Hwf2 Hall]].
    split; [congruence|]. split; [exact Hwf2|].
    constructor; [|exact Hall]. split; [exact Hp|]. now apply Hgrow.
Qed.

(** After a rescan that runs to its end the registry holds what discovery
    reported and nothing else: every key is the path of a reported
    project, as reported or in normal form, and every reported project is
    registered under one of the two. *)
Theorem rescan_converges_to_discovery (s s' : Server) (tr : list Effect)
        (snapshot : list Session.t) :
  mapWf (projects s) ->
  rescan localeCompare normalizePath w s = (tr, s', Done snapshot) ->
  (forall k, In k (mapKeys (projects s')) ->
             exists p, In p (discoverProjects w)
                       /\ (k = Project.path p
                           \/ k = normalizePath (Project.path p)))
  /\ (forall p, In p (discoverProjects w) ->
                In (Project.path p) (mapKeys (projects s'))
                \/ In (normalizePath (Project.path p))
                      (mapKeys (projects s'))).
Proof.
  intros Hwf Hrun. unfold rescan in Hrun.
  apply bind_done_inv in Hrun.
  destruct Hrun as [tra [sa [aps [tr' [Hadd [Hrest _]]]]]].
  apply bind_done_inv in Hrest.
  destruct Hrest as [trr [sr [[] [tr'' [Hrem [Hfin _]]]]]].
  unfold bind, get in Hfin. rewrite broadcast_run in Hfin.
  unfold ret in Hfin. injection Hfin as _ <- _.
  destruct (rescanAdd_any _ aps s sa tra Hwf Hadd) as [_ [Hwfa Hall]].
  destruct (rescanRemove_done w aps sa sr trr Hwfa Hrem) as [Hpr _].
  rewrite Hpr. split.
  - intros k Hk. apply in_map_iff in Hk. destruct Hk as [[k' v] [Hk Hin]].
    cbn [fst] in Hk. subst k'. apply filter_In in Hin.
    destruct Hin as [_ Hstill]. unfold stillExists in Hstill.
    apply existsb_exists in Hstill. destruct Hstill as [p' [Hp' Heq]].
    cbn [fst] in Heq. apply String.eqb_eq in Heq. subst k.
    clear - Hall Hp'. induction Hall as [|p q aps out [Hpq _] _ IH];
      [destruct Hp'|].
    destruct Hp' as [<-|Hp'].
    + exists p. split; [now left|exact Hpq].
    + destruct (IH Hp') as [p0 [H1 H2]]. exists p0. split; [now right|exact H2].
  - intros p Hp.
    assert (Hq : exists p', In p' aps
                            /\ (Project.path p' = Project.path p
                                \/ Project.path p' =
                                   normalizePath (Project.path p))
                            /\ mapHas (projects sa) (Project.path p') = true).
    { clear - Hall Hp. induction Hall as [|p0 q l out [H1 H2] _ IH];
        [destruct Hp|].
      destruct Hp as [->|Hp].
      - exists q. split; [now left|]. auto.
      - destruct (IH Hp) as [p' [Ha Hb]]. exists p'. split; [now right|exact Hb]. }
    destruct Hq as [p' [Hin [Hpath Hhas]]].
    assert (Hkey : In (Project.path p')
                      (mapKeys (filter (stillExists aps) (projects sa)))).
    { apply mapHas_In, in_map_iff in Hhas.
      destruct Hhas as [[k v] [Hk Hkv]]. cbn [fst] in Hk. subst k.
      apply in_map_iff. exists (Project.path p', v).
      split; [reflexivity|]. apply filter_In. split; [exact Hkv|].
      unfold stillExists. apply existsb_exists. exists p'.
      split; [exact Hin|]. apply String.eqb_refl. }
    destruct Hpath as [E|E]; rewrite E in Hkey; auto.
Qed.

Lemma rescan_keeps_clients (c : list Client) :
  preserves (fun s0 => clients s0 = c) (rescan localeCompare normalizePath w).
Proof.
  unfold rescan. apply preserves_bind.
  - unfold rescanAdd. apply preserves_mapEach. intro p.
    unfold rescanAddOne. apply preserves_bind_get. intros s0 Hs0.
    destruct (negb (mapHas (projects s0) (Project.path p))); [|exact Hs0].
    refine (preserves_bind (fun s0 => clients s0 = c) _ _ _ _ _ _ s0 Hs0).
    + intros s1 Hs1. rewrite initializeProject_run.
      now destruct (watcherStartThrows w (normalizePath (Project.path p))).
    + intro p'. apply preserves_bind_get. intros s1 Hs1.
      refine (preserves_bind (fun s0 => clients s0 = c) _ _ _ _ _ _ s1 Hs1);
        [apply preserves_broadcast|].
      intros _. apply preserves_ret.
  - intro aps. apply preserves_bind.
    + unfold rescanRemove. apply preserves_bind_get. intros s0 Hs0.
      refine (preserves_forEach (fun s0 => clients s0 = c) _ _ _ _ s0 Hs0).
      intro entry. unfold rescanRemoveOne.
      destruct (negb (stillExists aps entry)); [|apply preserves_ret].
      apply preserves_bind; [apply preserves_call|]. intros _.
      apply preserves_bind_get. intros s1 Hs1.
      unfold bind, put. rewrite broadcast_run. exact Hs1.
    + intros _. apply preserves_bind_get. intros s0 Hs0.
      refine (preserves_bind (fun s0 => clients s0 = c) _ _ _ _ _ _ s0 Hs0);
        [apply preserves_broadcast|].
      intros _. apply preserves_ret.
Qed.

(** A rescan that runs to its end finishes by sending every open viewer
    the active sessions of the registry as the pass leaves it, and the
    set of viewers is the one it started with. *)
Theorem rescan_ends_with_snapshot (s s' : Server) (tr : list Effect)
        (snapshot : list Session.t) :
  rescan localeCompare normalizePath w s = (tr, s', Done snapshot) ->
  snapshot = collectActiveSessions localeCompare w (projects s')
  /\ (exists before,
         tr = before ++ sends s' (ActiveSessionsUpdate snapshot))
  /\ clients s' = clients s.
Proof.
  intro Hrun. split; [|split].
  - unfold rescan in Hrun.
    apply bind_done_inv in Hrun.
    destruct Hrun as [tra [sa [aps [tr' [_ [Hrest _]]]]]].
    apply bind_done_inv in Hrest.
    destruct Hrest as [trr [sr [[] [tr'' [_ [Hfin _]]]]]].
    unfold bind, get in Hfin. rewrite broadcast_run in Hfin.
    unfold ret in Hfin. now injection Hfin as _ <- <-.
  - unfold rescan in Hrun.
    apply bind_done_inv in Hrun.
    destruct Hrun as [tra [sa [aps [tr' [_ [Hrest ->]]]]]].
    apply bind_done_inv in Hrest.
    destruct Hrest as [trr [sr [[] [tr'' [_ [Hfin ->]]]]]].
    unfold bind, get in Hfin. rewrite broadcast_run in Hfin.
    unfold ret in Hfin. injection Hfin as <- <- <-.
    exists (tra ++ trr). now rewrite app_nil_r, app_assoc.
  - pose proof (rescan_keeps_clients (clients s) s eq_refl) as H.
    now rewrite Hrun in H.
Qed.
End RegistryInvariant.

Lemma rescan_keeps_registry_ok_witness :
  registryOk
    (projects (serverOf (rescan codeUnitCompare trimSlashes slashWorld
                                sampleServer))).
Proof.
  apply (rescan_keeps_registry_ok codeUnitCompare trimSlashes slashWorld
           sampleServer).
  split.
  - unfold mapWf. simpl. repeat constructor; simpl; intuition discriminate.
  - repeat constructor.
Defined.

Lemma rescan_converges_to_discovery_witness :
  let pass := rescan codeUnitCompare trimSlashes slashWorld sampleServer in
  (forall k, In k (mapKeys (projects (serverOf pass))) ->
             exists p, In p [projectSlash]
                       /\ (k = Project.path p
                           \/ k = trimSlashes (Project.path p)))
  /\ (forall p, In p [projectSlash] ->
                In (Project.path p) (mapKeys (projects (serverOf pass)))
                \/ In (trimSlashes (Project.path p))
                      (mapKeys (projects (serverOf pass)))).
Proof.
  intro pass.
  apply (rescan_converges_to_discovery codeUnitCompare trimSlashes slashWorld
           sampleServer (serverOf pass) (traceOf pass)
           (collectActiveSessions codeUnitCompare slashWorld
                                  (projects (serverOf pass)))).
  - unfold mapWf. simpl. repeat constructor; simpl; intuition discriminate.
  - vm_compute. reflexivity.
Defined.

Lemma rescan_ends_with_snapshot_witness :
  let pass := rescan codeUnitCompare trimSlashes sampleWorld sampleServer in
  collectActiveSessions codeUnitCompare sampleWorld sampleRegistry =
  collectActiveSessions codeUnitCompare sampleWorld (projects (serverOf pass))
  /\ (exists before,
         traceOf pass =
         before
         ++ sends (serverOf pass)
                  (ActiveSessionsUpdate
                     (collectActiveSessions codeUnitCompare sampleWorld
                                            sampleRegistry)))
  /\ clients (serverOf pass) = clients sampleServer.
Proof.
  intro pass.
  apply (rescan_ends_with_snapshot codeUnitCompare trimSlashes sampleWorld
           sampleServer (serverOf pass) (traceOf pass)).
  vm_compute. reflexivity.
Defined.

(* ------------------------------------------------------------------ *)
(** ** Teardown, tunnel start and the initial message *)

(** [stop] never empties the registry and never forgets the timer handle,
    however it ends; when it runs to its end no viewer is left. *)
Theorem stop_keeps_registry_and_timer (w : World) (s : Server) :
  projects (serverOf (stop w s)) = projects s
  /\ rescanInterval (serverOf (stop w s)) = rescanInterval s
  /\ (outcomeOf (stop w s) = Done tt -> clients (serverOf (stop w s)) = []).
Proof.
  pose (I := fun s0 : Server =>
               projects s0 = projects s
               /\ rescanInterval s0 = rescanInterval s).
  assert (Hkeep : preserves I (stop w)).
  { unfold stop. apply preserves_bind_get. intros s0 Hs0.
    refine (preserves_bind I _ _ _ _ _ _ s0 Hs0).
    { destruct (rescanInterval s0);
        [apply preserves_emit|apply preserves_ret]. }
    intros _. apply preserves_bind.
    { apply preserves_forEach. intro entry. apply preserves_call. }
    intros _. apply preserves_bind.
    { destruct (tunnelManager s0) as [m|]; [|apply preserves_ret].
      intros s1 Hs1. rewrite stopTunnel_run.
      destruct (tunnelActive m); [|exact Hs1].
      destruct (stopTunnelThrows w); exact Hs1. }
    intros _. apply preserves_bind_get. intros s1 Hs1.
    refine (preserves_bind I _ _ _ _ _ _ s1 Hs1).
    { intros s2 Hs2. rewrite forEach_clients. exact Hs2. }
    intros _. apply preserves_bind_get. intros s2 Hs2.
    refine (preserves_bind I _ _ _ _ _ _ s2 Hs2).
    { intros s3 Hs3. exact Hs2. }
    intros _. apply preserves_call. }
  destruct (Hkeep s (conj eq_refl eq_refl)) as [H1 H2].
  split; [exact H1|]. split; [exact H2|].
  destruct (stop w s) as [[tr s'] o] eqn:E.
  cbn [outcomeOf serverOf fst snd]. intros ->.
  unfold stop in E.
  apply bind_done_inv in E. destruct E as [? [? [? [? [_ [E _]]]]]].
  apply bind_done_inv in E. destruct E as [? [? [? [? [_ [E _]]]]]].
  apply bind_done_inv in E. destruct E as [? [? [? [? [_ [E _]]]]]].
  apply bind_done_inv in E. destruct E as [? [? [? [? [_ [E _]]]]]].
  apply bind_done_inv in E. destruct E as [? [? [? [? [_ [E _]]]]]].
  apply bind_done_inv in E. destruct E as [? [? [? [? [_ [E _]]]]]].
  apply bind_done_inv in E. destruct E as [? [? [s2 [? [_ [E _]]]]]].
  apply bind_done_inv in E. destruct E as [? [sx [? [? [Hput [E _]]]]]].
  unfold put in Hput. injection Hput as _ <- _.
  rewrite call_run in E. injection E as _ <- _. reflexivity.
Qed.

(** With a tunnel active the start route starts nothing: whatever
    [startTunnel] would do, the route leaves the server as it is, sends
    nothing and answers with the info of the running tunnel. *)
Theorem tunnelStartRoute_already_active
        (startTunnel : TunnelManager -> M JsAny) (s : Server) :
  tunnelStatusActive s = true ->
  exists m,
    tunnelManager s = Some m
    /\ tunnelStartRoute startTunnel s =
       ([], s, Done (StartAlreadyActive (tunnelInfo m))).
Proof.
  unfold tunnelStatusActive, tunnelStartRoute. intro Hactive.
  destruct (tunnelManager s) as [m|] eqn:Em; [|discriminate].
  exists m. split; [reflexivity|].
  unfold tryCatch, bind, get, ret. rewrite Em. cbn. rewrite Hactive.
  reflexivity.
Qed.

Lemma tunnelStartRoute_already_active_witness :
  exists m,
    tunnelManager tunnelServer = Some m
    /\ tunnelStartRoute (fun _ => throw StopTunnelFailed) tunnelServer =
       ([], tunnelServer, Done (StartAlreadyActive (tunnelInfo m))).
Proof.
  apply (tunnelStartRoute_already_active (fun _ => throw StopTunnelFailed)
           tunnelServer).
  reflexivity.
Defined.

Lemma allActiveSessions_origin (w : World) (registry : Registry)
      (s : Session.t) :
  In s (allActiveSessions w registry) ->
  exists path state,
    In (path, state) registry
    /\ Project.hasActiveSession (project state) = true
    /\ s = activeSessionOf path state (getAllSpecs w (parser state))
                           (getAllBugs w (parser state)) (now w).
Proof.
  induction registry as [|[p st] rest IH]; simpl; [intros []|].
  destruct (Project.hasActiveSession (project st)) eqn:E; simpl.
  - intros [<-|Hin].
    + exists p, st. auto.
    + destruct (IH Hin) as [path [state [H1 H2]]].
      exists path, state. auto.
  - intro Hin. destruct (IH Hin) as [path [state [H1 H2]]].
    exists path, state. auto.
Qed.

Lemma allActiveSessions_count (w : World) (registry : Registry) :
  List.length (allActiveSessions w registry) =
  List.length
    (filter (fun entry => Project.hasActiveSession (project (snd entry)))
            registry).
Proof.
  induction registry as [|[p st] rest IH]; simpl; [reflexivity|].
  destruct (Project.hasActiveSession (project st)); simpl; congruence.
Qed.

(** The initial message lists every registered project once, in registry
    order, and as many active sessions as it lists projects with an
    attached process; each session names the path and the name of such a
    project of the same message. *)
Theorem sendInitialState_consistent
        (localeCompare : string -> string -> Z) (w : World)
        (registry : Registry) (username : string) :
  registryOk registry ->
  let message := sendInitialState localeCompare w registry username in
  map (fun d => Project.path (dataProject d)) (initialData message)
  = mapKeys registry
  /\ List.length (initialSessions message) =
     List.length
       (filter (fun d => Project.hasActiveSession (dataProject d))
               (initialData message))
  /\ forall s, In s (initialSessions message) ->
       exists d, In d (initialData message)
                 /\ Project.hasActiveSession (dataProject d) = true
                 /\ Project.path (dataProject d)
                    = Session.projectPath (Session.common s)
                 /\ Project.name (dataProject d)
                    = Session.projectName (Session.common s).
Proof.
  intros [Hwf Hall]. cbv zeta. unfold sendInitialState.
  cbn [initialData initialSessions]. split; [|split].
  - unfold mapKeys. rewrite map_map. apply map_ext_in.
    intros entry Hin. rewrite Forall_forall in Hall.
    now destruct (Hall entry Hin).
  - unfold collectActiveSessions.
    rewrite jsSort_length, allActiveSessions_count, filter_map_comm.
    now rewrite length_map.
  - intros s Hs. unfold collectActiveSessions in Hs.
    apply jsSort_In in Hs. apply allActiveSessions_origin in Hs.
    destruct Hs as [path [state [Hin [Hflag ->]]]].
    eexists. split.
    + apply in_map_iff. exists (path, state). split; [reflexivity|exact Hin].
    + cbn [dataProject snd].
      destruct (activeSessionOf_common path state
                  (getAllSpecs w (parser state))
                  (getAllBugs w (parser state)) (now w)) as [d [m ->]].
      cbn. rewrite Forall_forall in Hall.
      destruct (Hall (path, state) Hin) as [Hpath _]. auto.
Qed.

Lemma sendInitialState_consistent_witness :
  let message :=
    sendInitialState codeUnitCompare sampleWorld sampleRegistry "Ann" in
  map (fun d => Project.path (dataProject d)) (initialData message)
  = ["/w/b"; "/w/c"; "/w/a"]
  /\ List.length (initialSessions message) =
     List.length
       (filter (fun d => Project.hasActiveSession (dataProject d))
               (initialData message))
  /\ forall s, In s (initialSessions message) ->
       exists d, In d (initialData message)
                 /\ Project.hasActiveSession (dataProject d) = true
                 /\ Project.path (dataProject d)
                    = Session.projectPath (Session.common s)
                 /\ Project.name (dataProject d)
                    = Session.projectName (Session.common s).
Proof.
  apply (sendInitialState_consistent codeUnitCompare sampleWorld
           sampleRegistry "Ann").
  split.
  - unfold mapWf. simpl. repeat constructor; simpl; intuition discriminate.
  - repeat constructor.
Defined.

(* ------------------------------------------------------------------ *)
(** ** More on the resolver *)

(** [findTaskById] answers a task of the tree that carries the id, and
    answers nothing only when no task of the tree, at any depth, carries
    it. *)
Theorem findTaskById_sound_complete (tasks : list Task.t) (taskId : string) :
  match findTaskById tasks taskId with
  | Some found => Task.id found = taskId /\ In found (flattenTasks tasks)
  | None => forall t, In t (flattenTasks tasks) -> Task.id t <> taskId
  end.
Proof.
  rewrite findTaskById_find.
  destruct (find _ _) as [found|] eqn:E.
  - apply find_some in E. destruct E as [Hin Hid].
    apply String.eqb_eq in Hid. auto.
  - intros t Ht. apply (find_none _ _ E) in Ht.
    now apply String.eqb_neq.
Qed.

Lemma fallbackWorkItems_In (specs : list Spec.t) (bugs : list Bug.t)
      (wi : WorkItem) :
  In wi (fallbackWorkItems specs bugs) ->
  (exists spec, In spec specs /\ Spec.status spec <> "completed"
                /\ wi = specWorkItem 10 spec)
  \/ (exists bug, In bug bugs /\ Bug.status bug <> "resolved"
                  /\ wi = bugWorkItem 10 bug).
Proof.
  unfold fallbackWorkItems. rewrite in_app_iff, !in_map_iff.
  intros [[spec [<- H]]|[bug [<- H]]]; apply filter_In in H;
    destruct H as [H1 H2]; apply negb_true_iff, String.eqb_neq in H2;
    [left; exists spec | right; exists bug]; auto.
Qed.

Lemma activeWorkItems_bug (specs : list Spec.t) (bugs : list Bug.t)
      (wi : WorkItem) (bug : Bug.t) :
  In wi (activeWorkItems specs bugs) -> item wi = BugItem bug ->
  In bug bugs /\ Bug.status bug <> "resolved".
Proof.
  unfold activeWorkItems. intros Hin Hitem.
  destruct (primaryWorkItems specs bugs) as [|x items] eqn:Ep.
  - apply fallbackWorkItems_In in Hin.
    destruct Hin as [[spec [_ [_ ->]]]|[b [H1 [H2 ->]]]];
      [discriminate|].
    injection Hitem as <-. auto.
  - rewrite <- Ep in Hin. apply primaryWorkItems_In in Hin.
    destruct Hin as [[spec [_ [_ ->]]]|[b [H1 [H2 ->]]]];
      [discriminate|].
    injection Hitem as <-. split; [exact H1|].
    unfold isActiveBug in H2. intro Hres. rewrite Hres in H2. discriminate.
Qed.

(** A bug session of the snapshot is never for a resolved bug, so its
    next command is never empty: it is rendered from a bug the parser
    listed for the project, with that bug's name and status. *)
Theorem bug_sessions_have_next_command
        (localeCompare : string -> string -> Z) (w : World)
        (registry : Registry) (base : Session.base)
        (fields : Session.bugFields) :
  In (Session.bug base fields)
     (collectActiveSessions localeCompare w registry) ->
  Session.bugStatus fields <> "resolved"
  /\ Session.nextCommand fields <> ""
  /\ exists state bug,
       In (Session.projectPath base, state) registry
       /\ In bug (getAllBugs w (parser state))
       /\ Session.bugName fields = Bug.name bug
       /\ Session.bugStatus fields = Bug.status bug.
Proof.
  intro Hin. unfold collectActiveSessions in Hin.
  apply jsSort_In in Hin. apply allActiveSessions_origin in Hin.
  destruct Hin as [path [state [Hreg [_ Hs]]]].
  unfold activeSessionOf in Hs.
  destruct (sortedWorkItems _ _) as [|mostRecent rest] eqn:E;
    [discriminate|].
  destruct (sortedWorkItems_head _ _ _ _ E) as [Hmem _].
  unfold renderWorkItem in Hs.
  destruct (item mostRecent) as [spec|bug] eqn:Ei; [discriminate|].
  destruct (activeWorkItems_bug _ _ _ _ Hmem Ei) as [Hbug Hres].
  unfold renderBug in Hs. injection Hs as -> ->.
  cbn [Session.bugStatus Session.nextCommand Session.bugName
       Session.projectPath sessionBase].
  split; [exact Hres|]. split.
  - unfold nextCommandFor.
    apply String.eqb_neq in Hres. rewrite Hres.
    repeat match goal with
           | |- context [if ?b then _ else _] => destruct b
           end; discriminate.
  - exists state, bug. auto.
Qed.

Lemma bug_sessions_have_next_command_witness :
  Session.bugStatus
    (Session.mkBug "crash" "fixing" (Some high) "/bug-fix crash")
  <> "resolved"
  /\ Session.nextCommand
       (Session.mkBug "crash" "fixing" (Some high) "/bug-fix crash") <> ""
  /\ exists state bug,
       In ("/w/a", state) [("/w/a", stateOf projectA)]
       /\ In bug (getAllBugs laterWorld (parser state))
       /\ "crash" = Bug.name bug
       /\ "fixing" = Bug.status bug.
Proof.
  apply (bug_sessions_have_next_command codeUnitCompare
           {| discoverProjects := [];
              getAllSpecs := fun _ => [];
              getAllBugs := getAllBugs laterWorld;
              getProjectSteeringStatus := fun _ => None;
              now := 0;
              watcherStartThrows := fun _ => false;
              watcherStopThrows := fun _ => false;
              stopTunnelThrows := false;
              appCloseThrows := false |}
           [("/w/a", stateOf projectA)]
           (Session.mkBase "/w/a" "alpha" "crash" 800 true true
                           (Some "main") None)
           (Session.mkBug "crash" "fixing" (Some high) "/bug-fix crash")).
  vm_compute. auto.
Defined.

(* ------------------------------------------------------------------ *)
(** ** The properties on the samples *)

Lemma checkMergeReadiness_ready_iff_no_blocker_witness :
  MergeStatus.ready (checkMergeReadiness trimAscii brokenGit samplePR) = false
  /\ MergeStatus.blockers (checkMergeReadiness trimAscii brokenGit samplePR)
     = ["Branch feature/login is behind main"].
Proof.
  destruct (checkMergeReadiness_ready_iff_no_blocker trimAscii brokenGit
              samplePR) as [_ [_ [_ [_ [_ Hfetch]]]]].
  split; [apply Hfetch; reflexivity|reflexivity].
Defined.

Lemma stop_keeps_registry_and_timer_witness :
  projects (serverOf (stop brokenWatcherWorld tunnelServer)) = sampleRegistry
  /\ clients (serverOf (stop sampleWorld tunnelServer)) = [].
Proof.
  destruct (stop_keeps_registry_and_timer brokenWatcherWorld tunnelServer)
    as [Hreg _].
  destruct (stop_keeps_registry_and_timer sampleWorld tunnelServer)
    as [_ [_ Hdone]].
  split; [exact Hreg|apply Hdone; reflexivity].
Defined.
